(** * The form engine of src/composables/useForm.ts

    A shallow embedding of [useForm], [useFormField] and the built-in
    [validators], and the properties of the form engine proved on it.

    Conventions of the embedding.
    - A [Record<string, X>] object is a finite map [gmap jsstring X] of its
      own properties; the rule object, whose key order drives [validate], is
      an association list in [Object.keys] order.  A read [o[name]] of the
      rule object, of [errors] or of [touched] that finds no own property
      finds the member every object inherits under that name from
      [Object.prototype], if there is one.  The reactive wrappers of the
      framework are taken to be transparent, and the key [__proto__] is not
      treated specially when written.
    - The result of an [async] function is a [Result], which says whether
      the returned promise fulfils, rejects or never settles, together with
      the form it leaves behind.  A call that is awaited is run to its end;
      a validation that is not awaited ([setFieldValue], [onBlur]) is left in
      flight and makes its write when it gets to its end, which may be after
      later calls.  Callbacks supplied by the caller (validators,
      [onSubmit]) are functions to an [Outcome] of their argument alone; they
      do not touch the form themselves.
    - The object the caller passes as [initialValues] stays the caller's: the
      engine reads it again at each [reset] and in the watcher.
    - Field values are the primitive values of the language; objects and
      arrays as field values are outside the model.  So is the value read
      for a field that has none of its own under the name of a member of
      [Object.prototype]: that read finds the member, an object.  The field
      binding, which only hands on what it reads, keeps the three cases
      apart ([Member]). *)

From Stdlib Require Import QArith.
From stdpp Require Import gmap strings list fin_maps.

Local Open Scope list_scope.

(** ** Strings and numbers of the language *)

(** A string is its sequence of UTF-16 code units. *)
Abbreviation jsstring := (list N).

(** The code units of an ASCII literal. *)
Fixpoint js (s : string) : jsstring :=
  match s with
  | EmptyString => []
  | String a s' => Ascii.N_of_ascii a :: js s'
  end.

(** A number: finite numbers are represented by their exact rational value
    (every finite double is one), [+0] and [-0] are identified. *)
Inductive JsNumber :=
  | NaN
  | NegInfinity
  | Finite (q : Q)
  | PosInfinity.

Definition num_of_nat (n : nat) : JsNumber := Finite (inject_Z (Z.of_nat n)).

Definition num_isNaN (x : JsNumber) : bool :=
  match x with NaN => true | _ => false end.

(** [x < y] on numbers: [None] is the "undefined" answer given when an
    operand is NaN. *)
Definition num_lt (x y : JsNumber) : option bool :=
  match x, y with
  | NaN, _ | _, NaN => None
  | PosInfinity, _ => Some false
  | _, NegInfinity => Some false
  | NegInfinity, _ => Some true
  | _, PosInfinity => Some true
  | Finite p, Finite q => Some (negb (Qle_bool q p))
  end.

(** [x === y] on numbers. *)
Definition num_eq (x y : JsNumber) : bool :=
  match x, y with
  | NegInfinity, NegInfinity => true
  | PosInfinity, PosInfinity => true
  | Finite p, Finite q => Qeq_bool p q
  | _, _ => false
  end.

(** ** Values *)

Inductive JsValue :=
  | JUndefined
  | JNull
  | JBool (b : bool)
  | JNum (n : JsNumber)
  | JStr (s : jsstring).

(** [a === b] *)
Definition strict_eq (a b : JsValue) : bool :=
  match a, b with
  | JUndefined, JUndefined => true
  | JNull, JNull => true
  | JBool x, JBool y => bool_decide (x = y)
  | JNum x, JNum y => num_eq x y
  | JStr s, JStr t => bool_decide (s = t)
  | _, _ => false
  end.

(** ToBoolean: what [if (v)], [!v] and [v || w] test. *)
Definition truthy (v : JsValue) : bool :=
  match v with
  | JUndefined | JNull => false
  | JBool b => b
  | JNum NaN => false
  | JNum (Finite q) => negb (Qeq_bool q 0)
  | JNum _ => true
  | JStr s => negb (bool_decide (s = []))
  end.

(** The two conversions between strings and numbers that the built-in rules
    reach: StringToNumber (through [Number(v)], [>=] and [<=]) and
    Number::toString (through template literals and [RegExp.prototype.test]).
    Both are defined by the language on IEEE doubles and are taken here as an
    interface; the one fact used is that the empty string converts to 0. *)
Class Conversions := {
  StringToNumber : jsstring -> JsNumber;
  NumberToString : JsNumber -> jsstring;
  StringToNumber_empty : StringToNumber [] = Finite 0
}.

Section Coercions.
Context {host : Conversions}.

(** ToNumber on primitives. *)
Definition ToNumber (v : JsValue) : JsNumber :=
  match v with
  | JUndefined => NaN
  | JNull => Finite 0
  | JBool true => Finite 1
  | JBool false => Finite 0
  | JNum n => n
  | JStr s => StringToNumber s
  end.

(** ToString on primitives. *)
Definition ToString (v : JsValue) : jsstring :=
  match v with
  | JUndefined => js "undefined"
  | JNull => js "null"
  | JBool true => js "true"
  | JBool false => js "false"
  | JNum n => NumberToString n
  | JStr s => s
  end.

(** [a >= b] against a number [b]: false when [a < b] is true or
    undefined. *)
Definition js_ge (a : JsValue) (b : JsNumber) : bool :=
  match num_lt (ToNumber a) b with
  | Some false => true
  | _ => false
  end.

(** [a <= b] against a number [b]: false when [b < a] is true or
    undefined. *)
Definition js_le (a : JsValue) (b : JsNumber) : bool :=
  match num_lt b (ToNumber a) with
  | Some false => true
  | _ => false
  end.

(** [v.length] read on a primitive that is neither undefined nor null: the
    number of code units of a string, [undefined] on a boolean or number. *)
Definition get_length (v : JsValue) : JsValue :=
  match v with
  | JStr s => JNum (num_of_nat (length s))
  | _ => JUndefined
  end.
End Coercions.

(** ** Promises and callbacks *)

(** The fate of the promise an [async] function returns. *)
Inductive Result (A : Type) :=
  | Fulfilled (a : A)
  | Rejected (e : JsValue)
  | Unsettled.
Arguments Fulfilled {A} a.
Arguments Rejected {A} e.
Arguments Unsettled {A}.

(** What a call of a caller-supplied function does: it returns a value that is
    not a promise, throws, or returns a promise. *)
Inductive Outcome (A : Type) :=
  | Returns (a : A)
  | Throws (e : JsValue)
  | ReturnsPromise (p : Result A).
Arguments Returns {A} a.
Arguments Throws {A} e.
Arguments ReturnsPromise {A} p.

(** [await f(x)] inside an [async] function. *)
Definition settle {A} (o : Outcome A) : Result A :=
  match o with
  | Returns a => Fulfilled a
  | Throws e => Rejected e
  | ReturnsPromise p => p
  end.

(** ** Rules (types FormRule, FormRules, ValidateStatus) *)

Record FormRule := {
  required : option bool;
  message : option jsstring;
  validator : option (JsValue -> Outcome JsValue)
}.

(** [FormRule | FormRule[]] *)
Inductive RuleSpec :=
  | One (rule : FormRule)
  | Many (rules : list FormRule).

(** [Record<string, FormRule | FormRule[]>], in [Object.keys] order. *)
Abbreviation FormRules := (list (jsstring * RuleSpec)).

Inductive ValidateStatus :=
  | success
  | warning
  | error
  | validating.

(** [string | true], the result of [validateRule]. *)
Inductive RuleResult :=
  | Passed
  | Failed (msg : jsstring).

(** The default messages, by code unit: "this field is required" and
    "validation failed". *)
Definition msg_required : jsstring :=
  [27492; 23383; 27573; 20026; 24517; 22635; 39033]%N.
Definition msg_failed : jsstring :=
  [39564; 35777; 22833; 36133]%N.

(** [rule.message || dflt] *)
Definition message_or (rule : FormRule) (dflt : jsstring) : jsstring :=
  match message rule with
  | Some m => if bool_decide (m = []) then dflt else m
  | None => dflt
  end.

(** [value === undefined || value === null || value === ''] *)
Definition is_absent (value : JsValue) : bool :=
  strict_eq value JUndefined || strict_eq value JNull
  || strict_eq value (JStr []).

(** The guard of the required check: [rule.required && (...)]. *)
Definition required_fails (rule : FormRule) (value : JsValue) : bool :=
  match required rule with
  | Some true => is_absent value
  | _ => false
  end.

Definition validateRule (value : JsValue) (rule : FormRule)
  : Result RuleResult :=
  if required_fails rule value then
    Fulfilled (Failed (message_or rule msg_required))
  else
    match validator rule with
    | Some run =>
        match settle (run value) with
        | Fulfilled result =>
            if strict_eq result (JBool true) then Fulfilled Passed
            else match result with
                 | JStr s => Fulfilled (Failed s)
                 | _ => Fulfilled (Failed (message_or rule msg_failed))
                 end
        | Rejected _ => Fulfilled (Failed (message_or rule msg_failed))
        | Unsettled => Unsettled
        end
    | None => Fulfilled Passed
    end.

(** ** The form engine ([useForm]) *)

(** The reactive state a form handle closes over.  [valid] and [formState]
    are computed from it and are not part of it. *)
Record Form := {
  values : gmap jsstring JsValue;
  errors : gmap jsstring jsstring;
  touched : gmap jsstring bool;
  dirty : gmap jsstring bool;
  submitting : bool
}.

(** The interface [FormState]: what [formState.value] holds. *)
Record FormState := {
  fs_values : gmap jsstring JsValue;
  fs_errors : gmap jsstring jsstring;
  fs_touched : gmap jsstring bool;
  fs_dirty : gmap jsstring bool;
  fs_valid : bool;
  fs_submitting : bool
}.

Definition set_values (f : gmap jsstring JsValue -> gmap jsstring JsValue)
    (form : Form) : Form :=
  {| values := f (values form); errors := errors form;
     touched := touched form; dirty := dirty form;
     submitting := submitting form |}.

Definition set_errors (f : gmap jsstring jsstring -> gmap jsstring jsstring)
    (form : Form) : Form :=
  {| values := values form; errors := f (errors form);
     touched := touched form; dirty := dirty form;
     submitting := submitting form |}.

Definition set_touched (f : gmap jsstring bool -> gmap jsstring bool)
    (form : Form) : Form :=
  {| values := values form; errors := errors form;
     touched := f (touched form); dirty := dirty form;
     submitting := submitting form |}.

Definition set_dirty (f : gmap jsstring bool -> gmap jsstring bool)
    (form : Form) : Form :=
  {| values := values form; errors := errors form;
     touched := touched form; dirty := f (dirty form);
     submitting := submitting form |}.

Definition set_submitting (b : bool) (form : Form) : Form :=
  {| values := values form; errors := errors form;
     touched := touched form; dirty := dirty form;
     submitting := b |}.

(** [Object.keys(o)]; the order of the keys is that of the map, which no
    use below depends on. *)
Definition Object_keys {V} (o : gmap jsstring V) : list jsstring :=
  (map_to_list o).*1.

(** [o[key]] read on a record of values as a primitive value: [undefined]
    when the key is absent. *)
Definition get_value (o : gmap jsstring JsValue) (key : jsstring) : JsValue :=
  default JUndefined (o !! key).

(** [Object.keys(o).forEach(key => delete o[key])] *)
Definition delete_all_keys {V} (o : gmap jsstring V) : gmap jsstring V :=
  foldl (fun acc key => delete key acc) o (Object_keys o).

(** The members every object inherits from [Object.prototype]: eleven
    functions and the accessor [__proto__], which reads as the prototype
    object.  Read through an object that has no own property of that name,
    each of them is an object, hence truthy, and has none of the properties
    of a rule. *)
Definition Object_prototype_members : list jsstring :=
  [js "constructor"; js "__defineGetter__"; js "__defineSetter__";
   js "hasOwnProperty"; js "__lookupGetter__"; js "__lookupSetter__";
   js "isPrototypeOf"; js "propertyIsEnumerable"; js "toString";
   js "valueOf"; js "__proto__"; js "toLocaleString"].

Definition inherited (name : jsstring) : bool :=
  bool_decide (name ∈ Object_prototype_members).

(** What the read [o[name]] finds: an own property, a member inherited from
    [Object.prototype], or nothing ([undefined]). *)
Inductive Member (A : Type) :=
  | Own (a : A)
  | Inherited
  | Missing.
Arguments Own {A} a.
Arguments Inherited {A}.
Arguments Missing {A}.

Definition get_member {A} (o : gmap jsstring A) (name : jsstring)
  : Member A :=
  match o !! name with
  | Some a => Own a
  | None => if inherited name then Inherited else Missing
  end.

(** Truthiness of what a read found. *)
Definition truthy_member {A} (truthy_own : A -> bool) (m : Member A) : bool :=
  match m with
  | Own a => truthy_own a
  | Inherited => true
  | Missing => false
  end.

(** An [async] function of the engine: a promise result and the form left
    behind. *)
Definition M (A : Type) : Type := Form -> Result A * Form.

Definition ret {A} (a : A) : M A := fun form => (Fulfilled a, form).

Definition bind {A B} (m : M A) (k : A -> M B) : M B :=
  fun form =>
    match m form with
    | (Fulfilled a, form') => k a form'
    | (Rejected e, form') => (Rejected e, form')
    | (Unsettled, form') => (Unsettled, form')
    end.

Notation "'let!' x ':=' m 'in' k" := (bind m (fun x => k))
  (at level 10, x name, m at level 100, k at level 200).

(** [await o] *)
Definition await {A} (o : Outcome A) : M A := fun form => (settle o, form).

(** [try { body } finally { fin }]: [fin] runs when [body] completes, normally
    or not; it does not run while [body] is suspended for ever. *)
Definition try_finally {A} (body : M A) (fin : Form -> Form) : M A :=
  fun form =>
    match body form with
    | (Unsettled, form') => (Unsettled, form')
    | (r, form') => (r, fin form')
    end.

(** [Promise.all] of calls started one after the other.  Every call runs,
    whatever the others do; the joint promise rejects if one rejects, stays
    unsettled if one does, and otherwise fulfils with all the results.  The
    calls are sequenced in dispatch order: the [validateField] calls it is
    used for read their field at dispatch and write disjoint [errors] keys. *)
Definition join {A} (r : Result A) (rs : Result (list A)) : Result (list A) :=
  match r, rs with
  | Rejected e, _ => Rejected e
  | _, Rejected e => Rejected e
  | Unsettled, _ => Unsettled
  | _, Unsettled => Unsettled
  | Fulfilled a, Fulfilled l => Fulfilled (a :: l)
  end.

Fixpoint Promise_all {A} (calls : list (M A)) : M (list A) :=
  fun form =>
    match calls with
    | [] => (Fulfilled [], form)
    | call :: rest =>
        let '(r, form1) := call form in
        let '(rs, form2) := Promise_all rest form1 in
        (join r rs, form2)
    end.

Section UseForm.
Variable initialValues : gmap jsstring JsValue.
Variable rules : option FormRules.

(** The state at construction. *)
Definition useForm : Form :=
  {| values := initialValues; errors := ∅; touched := ∅; dirty := ∅;
     submitting := false |}.

Definition valid (form : Form) : bool :=
  Nat.eqb (length (Object_keys (errors form))) 0.

Definition formState (form : Form) : FormState :=
  {| fs_values := values form; fs_errors := errors form;
     fs_touched := touched form; fs_dirty := dirty form;
     fs_valid := valid form; fs_submitting := submitting form |}.

(** The own property [name] of the rule object. *)
Fixpoint lookup_rule (rs : FormRules) (name : jsstring) : option RuleSpec :=
  match rs with
  | [] => None
  | (key, rule) :: rest =>
      if bool_decide (key = name) then Some rule else lookup_rule rest name
  end.

(** The rule configured for a field: the own property of [rules], if any. *)
Definition rule_for (name : jsstring) : option RuleSpec :=
  match rules with
  | Some rs => lookup_rule rs name
  | None => None
  end.

(** [rules?.[name]]: the configured rule, or else the member the rule object
    inherits under that name. *)
Definition read_rule (name : jsstring) : Member RuleSpec :=
  match rules with
  | Some rs =>
      match lookup_rule rs name with
      | Some rule => Own rule
      | None => if inherited name then Inherited else Missing
      end
  | None => Missing
  end.

(** An inherited member read where a rule is expected: it is not an array
    and has no [required], [message] or [validator] property. *)
Definition member_as_rule : FormRule :=
  {| required := None; message := None; validator := None |}.

(** [Array.isArray(rule) ? rule : [rule]] *)
Definition fieldRules_of (rule : RuleSpec) : list FormRule :=
  match rule with
  | One r => [r]
  | Many rs => rs
  end.

(** The [for] loop of [validateField] and the two statements after it. *)
Fixpoint check_rules (name : jsstring) (value : JsValue)
    (fieldRules : list FormRule) : M bool :=
  match fieldRules with
  | [] => fun form => (Fulfilled true, set_errors (delete name) form)
  | fieldRule :: rest =>
      fun form =>
        match validateRule value fieldRule with
        | Fulfilled Passed => check_rules name value rest form
        | Fulfilled (Failed result) =>
            (Fulfilled false, set_errors (insert name result) form)
        | Rejected e => (Rejected e, form)
        | Unsettled => (Unsettled, form)
        end
  end.

(** The rules the loop of [validateField] runs through, or [None] when
    [!rule] returns early. *)
Definition fieldRules_read (rule : Member RuleSpec)
  : option (list FormRule) :=
  match rule with
  | Own r => Some (fieldRules_of r)
  | Inherited => Some [member_as_rule]
  | Missing => None
  end.

Definition validateField (name : jsstring) : M bool :=
  fun form =>
    match fieldRules_read (read_rule name) with
    | None => (Fulfilled true, form)
    | Some fieldRules =>
        check_rules name (get_value (values form) name) fieldRules form
    end.

Definition validate : M bool :=
  match rules with
  | None => ret true
  | Some rs =>
      let! results := Promise_all (map validateField rs.*1) in
      ret (forallb id results)
  end.

(** [validateField(name)] called without [await].  Before it returns to its
    caller the call runs up to its first [await]: it has looked up the rule
    and read the field's value, and with no rule, or with an empty list of
    rules, it has already finished.  Otherwise it is left in flight: when it
    gets to its end, if it does, it writes the field's error entry, computed
    from the value read at the call, into the form as it is by then.  The
    result is the form at the return and the write still to come, if any. *)
Definition validateField_unawaited (name : jsstring) (form : Form)
  : Form * option (Form -> Form) :=
  match fieldRules_read (read_rule name) with
  | None => (form, None)
  | Some [] => (set_errors (delete name) form, None)
  | Some fieldRules =>
      (form,
       Some (fun later =>
               (check_rules name (get_value (values form) name) fieldRules
                  later).2))
  end.

(** [setFieldValue(name, value)]: the form at the return and the validation
    left in flight, if any.  [touched[name]] is read as any property is. *)
Definition setFieldValue_call (name : jsstring) (value : JsValue)
    (form : Form) : Form * option (Form -> Form) :=
  let form1 := set_values (insert name value) form in
  let form2 := set_dirty (insert name true) form1 in
  if truthy_member id (get_member (touched form2) name)
  then validateField_unawaited name form2
  else (form2, None).

Definition setFieldValue (name : jsstring) (value : JsValue)
    (form : Form) : Form :=
  (setFieldValue_call name value form).1.

Definition setFieldValue_in_flight (name : jsstring) (value : JsValue)
    (form : Form) : option (Form -> Form) :=
  (setFieldValue_call name value form).2.

Definition setFieldError (name : jsstring) (err : jsstring)
    (form : Form) : Form :=
  set_errors (insert name err) form.

Definition clearFieldError (name : jsstring) (form : Form) : Form :=
  set_errors (delete name) form.

Definition touchField (name : jsstring) (form : Form) : Form :=
  set_touched (insert name true) form.

(** [Object.assign(values, initialValues)] writes every key of
    [initialValues] and leaves the other keys of [values] as they are.
    [initialValues] is the caller's object as it is when [reset] runs: the
    engine copies it at construction and keeps no copy for [reset]. *)
Definition reset (form : Form) : Form :=
  let form1 := set_values (fun vs => initialValues ∪ vs) form in
  let form2 := set_errors delete_all_keys form1 in
  let form3 := set_touched delete_all_keys form2 in
  let form4 := set_dirty delete_all_keys form3 in
  set_submitting false form4.

Definition submit (onSubmit : gmap jsstring JsValue -> Outcome unit)
  : M unit :=
  fun form =>
    try_finally
      (let! isValid := validate in
       if isValid then fun form' => await (onSubmit (values form')) form'
       else ret tt)
      (set_submitting false)
      (set_submitting true form).

(** The callback of the deep watcher on [values]. *)
Definition watch_callback (form : Form) : Form :=
  foldl
    (fun acc key =>
       if negb (strict_eq (get_value (values acc) key)
                  (get_value initialValues key))
       then set_dirty (insert key true) acc
       else acc)
    form (Object_keys (values form)).
End UseForm.

(** The calls a holder of the form handle, or of a field binding, can make;
    the events of the runtime between them (the watcher callback, an
    un-awaited validation getting to its end); and the writes of the caller
    to the object it passed as [initialValues]. *)
Inductive Op :=
  | CallSetFieldValue (name : jsstring) (value : JsValue)
  | CallSetFieldError (name : jsstring) (err : jsstring)
  | CallClearFieldError (name : jsstring)
  | CallTouchField (name : jsstring)
  | CallValidateField (name : jsstring)
  | CallValidate
  | CallSubmit (onSubmit : gmap jsstring JsValue -> Outcome unit)
  | CallReset
  | RunWatcher
  | CallOnBlur (name : jsstring)
  | SettleValidation (i : nat)
  | CallerWritesInitial (key : jsstring) (value : JsValue)
  | CallerDeletesInitial (key : jsstring).

(** A form handle in use: the reactive state, the un-awaited validations in
    flight (each as the write it makes when it gets to its end), and the
    caller's [initialValues] object as it is now. *)
Record Handle := {
  h_form : Form;
  h_in_flight : list (Form -> Form);
  h_initial : gmap jsstring JsValue
}.

Definition with_form (f : Form -> Form) (h : Handle) : Handle :=
  {| h_form := f (h_form h); h_in_flight := h_in_flight h;
     h_initial := h_initial h |}.

Definition with_initial
    (f : gmap jsstring JsValue -> gmap jsstring JsValue) (h : Handle)
  : Handle :=
  {| h_form := h_form h; h_in_flight := h_in_flight h;
     h_initial := f (h_initial h) |}.

(** The form after a call that may leave a validation in flight. *)
Definition dispatched (call : Form * option (Form -> Form)) (h : Handle)
  : Handle :=
  {| h_form := call.1;
     h_in_flight := h_in_flight h ++ option_list call.2;
     h_initial := h_initial h |}.

(** The [i]-th validation in flight gets to its end. *)
Definition settle_validation (i : nat) (h : Handle) : Handle :=
  match h_in_flight h !! i with
  | Some write =>
      {| h_form := write (h_form h); h_in_flight := delete i (h_in_flight h);
         h_initial := h_initial h |}
  | None => h
  end.

Section Reachable.
Variable initialValues : gmap jsstring JsValue.
Variable rules : option FormRules.

(** Calls that are awaited ([validateField], [validate], [submit]) are run
    to their end in one step. *)
Definition step (h : Handle) (op : Op) : Handle :=
  match op with
  | CallSetFieldValue name value =>
      dispatched (setFieldValue_call rules name value (h_form h)) h
  | CallSetFieldError name err => with_form (setFieldError name err) h
  | CallClearFieldError name => with_form (clearFieldError name) h
  | CallTouchField name => with_form (touchField name) h
  | CallValidateField name =>
      with_form (fun form => snd (validateField rules name form)) h
  | CallValidate => with_form (fun form => snd (validate rules form)) h
  | CallSubmit onSubmit =>
      with_form (fun form => snd (submit rules onSubmit form)) h
  | CallReset => with_form (reset (h_initial h)) h
  | RunWatcher => with_form (watch_callback (h_initial h)) h
  | CallOnBlur name =>
      dispatched
        (validateField_unawaited rules name (touchField name (h_form h))) h
  | SettleValidation i => settle_validation i h
  | CallerWritesInitial key value => with_initial (insert key value) h
  | CallerDeletesInitial key => with_initial (delete key) h
  end.

(** Construction: [values] is a copy of the caller's object. *)
Definition new_handle : Handle :=
  {| h_form := useForm initialValues; h_in_flight := [];
     h_initial := initialValues |}.

Definition run_handle (ops : list Op) : Handle := foldl step new_handle ops.

(** The form after a sequence of calls and events on a freshly constructed
    handle. *)
Definition run (ops : list Op) : Form := h_form (run_handle ops).
End Reachable.

(** ** The field binding ([useFormField]) *)

Section UseFormField.
Variable name : jsstring.
Variable form : option Form.

(** [form?.errors[name]], [form?.touched[name]] *)
Definition field_error : Member jsstring :=
  match form with
  | Some f => get_member (errors f) name
  | None => Missing
  end.
Definition field_touched : Member bool :=
  match form with
  | Some f => get_member (touched f) name
  | None => Missing
  end.

(** Truthiness of a string that may be [undefined]. *)
Definition truthy_str (o : option jsstring) : bool :=
  match o with
  | Some s => negb (bool_decide (s = []))
  | None => false
  end.

(** Truthiness of a string. *)
Definition nonempty (s : jsstring) : bool := negb (bool_decide (s = [])).

Definition status : ValidateStatus :=
  if truthy_member nonempty field_error then error
  else if truthy_member id field_touched
          && negb (truthy_member nonempty field_error)
  then success
  else validating.
End UseFormField.

(** ** Regular expressions *)

(** A regular expression is used through [test] only; a [RegExp] argument is
    its [test] on strings (no [g] or [y] flag, whose [lastIndex] is state). *)
Abbreviation RegExp := (jsstring -> bool).

(** The fragment the literal of [email] is written in, matched against the
    whole string ([^...$]) by derivatives. *)
Inductive regex :=
  | Void
  | Eps
  | Class (p : N -> bool)
  | Cat (r s : regex)
  | Alt (r s : regex)
  | Star (r : regex).

Fixpoint nullable (r : regex) : bool :=
  match r with
  | Void | Class _ => false
  | Eps | Star _ => true
  | Cat r s => nullable r && nullable s
  | Alt r s => nullable r || nullable s
  end.

Fixpoint deriv (c : N) (r : regex) : regex :=
  match r with
  | Void | Eps => Void
  | Class p => if p c then Eps else Void
  | Cat r s =>
      if nullable r then Alt (Cat (deriv c r) s) (deriv c s)
      else Cat (deriv c r) s
  | Alt r s => Alt (deriv c r) (deriv c s)
  | Star r => Cat (deriv c r) (Star r)
  end.

Definition matches (r : regex) (s : jsstring) : bool :=
  nullable (foldl (fun r c => deriv c r) r s).

(** [r+] *)
Definition Plus (r : regex) : regex := Cat r (Star r).

Definition Char (c : N) : regex := Class (N.eqb c).

(** The code units [\s] matches: white space and line terminators. *)
Definition is_space (c : N) : bool :=
  ((9 <=? c) && (c <=? 13) || (c =? 32) || (c =? 160) || (c =? 5760)
   || (8192 <=? c) && (c <=? 8202) || (c =? 8232) || (c =? 8233)
   || (c =? 8239) || (c =? 8287) || (c =? 12288) || (c =? 65279))%N.

(** [[^\s@]] *)
Definition not_space_at (c : N) : bool := negb (is_space c || (c =? 64)%N).

(** [/^[^\s@]+@[^\s@]+\.[^\s@]+$/] *)
Definition emailRegex : regex :=
  Cat (Plus (Class not_space_at))
    (Cat (Char 64)
       (Cat (Plus (Class not_space_at))
          (Cat (Char 46) (Plus (Class not_space_at))))).

(** ** The built-in rules ([validators]) *)

Module validators.
Section Validators.
Context {host : Conversions}.

(** Default messages, by code unit. *)
Definition msg_email : jsstring :=
  [35831; 36755; 20837; 26377; 25928; 30340; 37038; 31665; 22320; 22336]%N.
Definition msg_pattern : jsstring :=
  [26684; 24335; 19981; 27491; 30830]%N.
Definition msg_number : jsstring :=
  [35831; 36755; 20837; 26377; 25928; 30340; 25968; 23383]%N.
Definition msg_minLength (min : JsNumber) : jsstring :=
  [26368; 23569; 36755; 20837]%N ++ NumberToString min
    ++ [20010; 23383; 31526]%N.
Definition msg_maxLength (max : JsNumber) : jsstring :=
  [26368; 22810; 36755; 20837]%N ++ NumberToString max
    ++ [20010; 23383; 31526]%N.
Definition msg_min (min : JsNumber) : jsstring :=
  [20540; 19981; 33021; 23567; 20110]%N ++ NumberToString min.
Definition msg_max (max : JsNumber) : jsstring :=
  [20540; 19981; 33021; 22823; 20110]%N ++ NumberToString max.

(** A parameter with a default: [message = dflt]. *)
Definition param_or (message : option jsstring) (dflt : jsstring)
  : jsstring := default dflt message.

(** [ok || message] for a boolean [ok] and a string [message]. *)
Definition or_message (ok : bool) (message : jsstring) : JsValue :=
  if ok then JBool true else JStr message.

(** [ok || message || dflt] for an optional [message] and a non-empty
    [dflt]. *)
Definition or_message_or (ok : bool) (message : option jsstring)
    (dflt : jsstring) : JsValue :=
  if ok then JBool true
  else if truthy_str message then JStr (default [] message)
  else JStr dflt.

Definition rule_of_validator (run : JsValue -> JsValue) : FormRule :=
  {| required := None; message := None;
     validator := Some (fun value => Returns (run value)) |}.

Definition required (message : option jsstring) : FormRule :=
  {| required := Some true;
     message := Some (param_or message msg_required);
     validator := None |}.

Definition email (message : option jsstring) : FormRule :=
  rule_of_validator (fun value =>
    if negb (truthy value) then JBool true
    else or_message (matches emailRegex (ToString value))
           (param_or message msg_email)).

Definition minLength (min : JsNumber) (message : option jsstring)
  : FormRule :=
  rule_of_validator (fun value =>
    if negb (truthy value) then JBool true
    else or_message_or (js_ge (get_length value) min) message
           (msg_minLength min)).

Definition maxLength (max : JsNumber) (message : option jsstring)
  : FormRule :=
  rule_of_validator (fun value =>
    if negb (truthy value) then JBool true
    else or_message_or (js_le (get_length value) max) message
           (msg_maxLength max)).

Definition pattern (regex : RegExp) (message : option jsstring)
  : FormRule :=
  rule_of_validator (fun value =>
    if negb (truthy value) then JBool true
    else or_message (regex (ToString value))
           (param_or message msg_pattern)).

Definition number (message : option jsstring) : FormRule :=
  rule_of_validator (fun value =>
    if strict_eq value (JStr []) || strict_eq value JNull
       || strict_eq value JUndefined
    then JBool true
    else or_message (negb (num_isNaN (ToNumber value)))
           (param_or message msg_number)).

Definition min (min : JsNumber) (message : option jsstring) : FormRule :=
  rule_of_validator (fun value =>
    if strict_eq value JNull || strict_eq value JUndefined
    then JBool true
    else or_message_or (js_ge value min) message (msg_min min)).

Definition max (max : JsNumber) (message : option jsstring) : FormRule :=
  rule_of_validator (fun value =>
    if strict_eq value JNull || strict_eq value JUndefined
    then JBool true
    else or_message_or (js_le value max) message (msg_max max)).
End Validators.
End validators.

(** ** The rest of the field binding ([useFormField]) *)

(** The interface [FormFieldState]; each field holds what the read behind it
    found. *)
Record FormFieldState := {
  ffs_value : Member JsValue;
  ffs_error : Member jsstring;
  ffs_status : ValidateStatus;
  ffs_touched : Member bool;
  ffs_dirty : Member bool
}.

(** [form?.values[name]], [form?.dirty[name]] *)
Definition field_value (name : jsstring) (form : option Form)
  : Member JsValue :=
  match form with
  | Some f => get_member (values f) name
  | None => Missing
  end.

Definition field_dirty (name : jsstring) (form : option Form)
  : Member bool :=
  match form with
  | Some f => get_member (dirty f) name
  | None => Missing
  end.

(** [x || dflt] *)
Definition member_or {A} (truthy_own : A -> bool) (m : Member A) (dflt : A)
  : Member A :=
  if truthy_member truthy_own m then m else Own dflt.

Definition fieldState (name : jsstring) (form : option Form)
  : FormFieldState :=
  {| ffs_value := field_value name form;
     ffs_error := member_or nonempty (field_error name form) [];
     ffs_status := status name form;
     ffs_touched := member_or id (field_touched name form) false;
     ffs_dirty := member_or id (field_dirty name form) false |}.

(** The handlers act on the form the binding was given, if any; [rules] are
    the rules that form was constructed with.  [onBlur] leaves its
    validation un-awaited, [onChange] is [setFieldValue]: each gives the
    form at its return and the validation left in flight, if any. *)
Definition onBlur_call (rules : option FormRules) (name : jsstring)
    (f : Form) : Form * option (Form -> Form) :=
  validateField_unawaited rules name (touchField name f).

Definition onBlur (rules : option FormRules) (name : jsstring)
    (form : option Form) : option Form :=
  match form with
  | Some f => Some (onBlur_call rules name f).1
  | None => None
  end.


Definition onChange (rules : option FormRules) (name : jsstring)
    (val : JsValue) (form : option Form) : option Form :=
  match form with
  | Some f => Some (setFieldValue rules name val f)
  | None => None
  end.

Definition onChange_in_flight (rules : option FormRules) (name : jsstring)
    (val : JsValue) (form : option Form) : option (Form -> Form) :=
  match form with
  | Some f => setFieldValue_in_flight rules name val f
  | None => None
  end.

(** ** The language of a regular expression *)

(** The strings a regular expression of the fragment matches as a whole. *)
Inductive re_lang : regex -> jsstring -> Prop :=
  | lang_eps : re_lang Eps []
  | lang_class p c : p c = true -> re_lang (Class p) [c]
  | lang_cat r s u v :
      re_lang r u -> re_lang s v -> re_lang (Cat r s) (u ++ v)
  | lang_alt_l r s u : re_lang r u -> re_lang (Alt r s) u
  | lang_alt_r r s u : re_lang s u -> re_lang (Alt r s) u
  | lang_star_nil r : re_lang (Star r) []
  | lang_star_cons r u v :
      re_lang r u -> re_lang (Star r) v -> re_lang (Star r) (u ++ v).

(** A non-empty string with no white space and no [@] in it. *)
Definition email_part (s : jsstring) : Prop :=
  s ≠ [] ∧ Forall (fun c => not_space_at c = true) s.

(** ** Vocabulary of the statements *)


(** Two forms that differ in [errors] at most: what validation may change. *)
Definition same_but_errors (form form' : Form) : Prop :=
  values form' = values form ∧ touched form' = touched form
  ∧ dirty form' = dirty form ∧ submitting form' = submitting form.




(** A write that changes [errors] at most, as those of validations do. *)
Definition writes_errors_only (write : Form -> Form) : Prop :=
  ∀ form, same_but_errors form (write form).


(** ** A host for the examples *)

(** Conversions that are exact on the inputs the examples use: the empty
    string and strings of decimal digits on one side, NaN, the infinities and
    the integers on the other.  Other numeric literals (signs, fractions,
    exponents, white space) and fractional numbers are not covered: a string
    that is not all digits converts to NaN here and a fraction prints as the
    empty string. *)
Fixpoint digits_value (acc : N) (s : jsstring) : option N :=
  match s with
  | [] => Some acc
  | c :: rest =>
      if ((48 <=? c) && (c <=? 57))%N
      then digits_value (10 * acc + (c - 48))%N rest
      else None
  end.

Definition digits_to_number (s : jsstring) : JsNumber :=
  match digits_value 0 s with
  | Some n => Finite (inject_Z (Z.of_N n))
  | None => NaN
  end.

Fixpoint uint_units (d : Decimal.uint) : jsstring :=
  match d with
  | Decimal.Nil => []
  | Decimal.D0 d => 48%N :: uint_units d
  | Decimal.D1 d => 49%N :: uint_units d
  | Decimal.D2 d => 50%N :: uint_units d
  | Decimal.D3 d => 51%N :: uint_units d
  | Decimal.D4 d => 52%N :: uint_units d
  | Decimal.D5 d => 53%N :: uint_units d
  | Decimal.D6 d => 54%N :: uint_units d
  | Decimal.D7 d => 55%N :: uint_units d
  | Decimal.D8 d => 56%N :: uint_units d
  | Decimal.D9 d => 57%N :: uint_units d
  end.

Definition integer_to_string (z : Z) : jsstring :=
  if (z <? 0)%Z then 45%N :: uint_units (N.to_uint (Z.abs_N z))
  else uint_units (N.to_uint (Z.abs_N z)).

Definition number_to_string (x : JsNumber) : jsstring :=
  match x with
  | NaN => js "NaN"
  | NegInfinity => js "-Infinity"
  | PosInfinity => js "Infinity"
  | Finite q =>
      if (Qden q =? 1)%positive then integer_to_string (Qnum q) else []
  end.

Definition decimal_host : Conversions :=
  {| StringToNumber := digits_to_number;
     NumberToString := number_to_string;
     StringToNumber_empty := eq_refl |}.

(** ** Example forms *)

(** A form with one field, [email], required and checked for its format. *)
Definition login_initial : gmap jsstring JsValue :=
  {[ js "email" := JStr [] ]}.

Definition login_rules : option FormRules :=
  Some [(js "email",
         Many [validators.required None;
               validators.email (host:=decimal_host) None])].

(** Submit handlers: one that resolves, one that rejects with ["x"]. *)
Definition resolving_handler (vs : gmap jsstring JsValue) : Outcome unit :=
  ReturnsPromise (Fulfilled tt).

Definition rejecting_handler (vs : gmap jsstring JsValue) : Outcome unit :=
  ReturnsPromise (Rejected (JStr (js "x"))).


Definition false_rule : FormRule :=
  {| required := None; message := None;
     validator := Some (fun _ => Returns (JBool false)) |}.

(** * Properties *)

(** ** Objects as maps *)

Lemma Object_keys_elem {V} (o : gmap jsstring V) (key : jsstring) :
  key ∈ Object_keys o ↔ is_Some (o !! key).
Proof.
  unfold Object_keys. rewrite list_elem_of_fmap. split.
  - intros [[k v] [-> Hin]]. apply elem_of_map_to_list in Hin. eauto.
  - intros [v Hv]. exists (key, v). split; [done|].
    by apply elem_of_map_to_list.
Qed.

Lemma Object_keys_nil {V} (o : gmap jsstring V) :
  Object_keys o = [] ↔ o = ∅.
Proof.
  unfold Object_keys. split.
  - intros Hnil. apply fmap_nil_inv in Hnil. by apply map_to_list_empty_iff.
  - intros ->. by rewrite map_to_list_empty.
Qed.

Lemma delete_keys_covering {V} (keys : list jsstring) (o : gmap jsstring V) :
  (∀ key, is_Some (o !! key) → key ∈ keys) →
  foldl (fun acc key => delete key acc) o keys = ∅.
Proof.
  revert o. induction keys as [|k keys IH]; intros o Hcover; simpl.
  - apply map_empty. intros key. apply eq_None_not_Some. intros Hsome.
    specialize (Hcover key Hsome). by apply elem_of_nil in Hcover.
  - apply IH. intros key Hsome.
    destruct (decide (key = k)) as [->|Hne].
    + rewrite lookup_delete_eq in Hsome. by destruct Hsome.
    + rewrite lookup_delete_ne in Hsome by done.
      specialize (Hcover key Hsome).
      apply elem_of_cons in Hcover as [?|?]; [done|assumption].
Qed.

Lemma delete_all_keys_empty {V} (o : gmap jsstring V) :
  delete_all_keys o = ∅.
Proof.
  apply delete_keys_covering. intros key. apply Object_keys_elem.
Qed.

Lemma valid_true_iff (form : Form) : valid form = true ↔ errors form = ∅.
Proof.
  unfold valid. rewrite Nat.eqb_eq, length_zero_iff_nil.
  apply Object_keys_nil.
Qed.


(** ** Reading the rule of a field *)

Lemma read_rule_own rules name spec :
  rule_for rules name = Some spec →
  fieldRules_read (read_rule rules name) = Some (fieldRules_of spec).
Proof.
  unfold rule_for, read_rule. destruct rules as [rs|]; [|done].
  by intros ->.
Qed.


Lemma validateField_own rules name spec form :
  rule_for rules name = Some spec →
  validateField rules name form
  = check_rules name (get_value (values form) name) (fieldRules_of spec) form.
Proof.
  intros Hspec. unfold validateField. by rewrite (read_rule_own _ _ _ Hspec).
Qed.

(** ** What validation leaves alone *)

Lemma same_but_errors_refl (form : Form) : same_but_errors form form.
Proof. by repeat split. Qed.

Lemma same_but_errors_trans (f1 f2 f3 : Form) :
  same_but_errors f1 f2 → same_but_errors f2 f3 → same_but_errors f1 f3.
Proof.
  intros (?&?&?&?) (?&?&?&?). repeat split; congruence.
Qed.

Lemma check_rules_frame name value fieldRules form :
  same_but_errors form (check_rules name value fieldRules form).2.
Proof.
  induction fieldRules as [|r rest IH]; simpl.
  - by repeat split.
  - destruct (validateRule value r) as [[|msg]|e|]; simpl;
      try apply same_but_errors_refl; [apply IH | by repeat split].
Qed.

Lemma validateField_frame rules name form :
  same_but_errors form (validateField rules name form).2.
Proof.
  unfold validateField. destruct (fieldRules_read (read_rule rules name)).
  - apply check_rules_frame.
  - apply same_but_errors_refl.
Qed.

Lemma Promise_all_frame {A} (calls : list (M A)) form :
  Forall (fun call => ∀ f, same_but_errors f (call f).2) calls →
  same_but_errors form (Promise_all calls form).2.
Proof.
  intros Hcalls. revert form.
  induction Hcalls as [|call rest Hcall _ IH]; intros form; simpl.
  - apply same_but_errors_refl.
  - specialize (Hcall form). destruct (call form) as [r form1].
    specialize (IH form1). destruct (Promise_all rest form1) as [rs form2].
    simpl in *. by eapply same_but_errors_trans.
Qed.

Lemma validate_frame rules form :
  same_but_errors form (validate rules form).2.
Proof.
  unfold validate. destruct rules as [rs|]; [|apply same_but_errors_refl].
  unfold bind.
  pose proof (Promise_all_frame (map (validateField (Some rs)) rs.*1) form)
    as Hall.
  destruct (Promise_all _ form) as [[results|e|] form']; simpl in *;
    apply Hall; apply Forall_forall; intros call Hin;
    apply list_elem_of_fmap in Hin as [name [-> _]]; intros f;
    apply validateField_frame.
Qed.

(** ** The derived [valid] flag *)

(** C1.  In every state a form handle can reach, the [valid] flag of
    [formState] is true if and only if the [errors] map is empty; the flag is
    computed from [errors] alone (two reachable states with the same errors
    have the same flag), no call stores it. *)
Theorem valid_iff_errors_empty
    (initialValues : gmap jsstring JsValue) (rules : option FormRules)
    (ops : list Op) :
  (fs_valid (formState (run initialValues rules ops)) = true
   ↔ fs_errors (formState (run initialValues rules ops)) = ∅)
  ∧ (∀ ops' : list Op,
       errors (run initialValues rules ops')
       = errors (run initialValues rules ops) →
       fs_valid (formState (run initialValues rules ops'))
       = fs_valid (formState (run initialValues rules ops))).
Proof.
  split.
  - simpl. apply valid_true_iff.
  - intros ops' Heq. simpl. unfold valid. by rewrite Heq.
Qed.

(** ** [reset] *)

Lemma watch_callback_values initialValues form :
  values (watch_callback initialValues form) = values form.
Proof.
  unfold watch_callback. generalize (Object_keys (values form)) as keys.
  intros keys. revert form. induction keys as [|k keys IH]; intros form.
  - done.
  - simpl. rewrite IH. by destruct (negb _).
Qed.

Lemma validateField_unawaited_frame rules name form :
  same_but_errors form (validateField_unawaited rules name form).1
  ∧ (∀ write, (validateField_unawaited rules name form).2 = Some write →
       writes_errors_only write).
Proof.
  unfold validateField_unawaited.
  destruct (fieldRules_read (read_rule rules name)) as [[|r rest]|]; simpl.
  - split; [by repeat split|done].
  - split; [by repeat split|]. intros write [= <-] later.
    exact (check_rules_frame name _ (r :: rest) later).
  - split; [by repeat split|done].
Qed.

Lemma setFieldValue_call_frame rules name value form :
  values (setFieldValue_call rules name value form).1
  = <[name:=value]> (values form)
  ∧ dirty (setFieldValue_call rules name value form).1
    = <[name:=true]> (dirty form)
  ∧ touched (setFieldValue_call rules name value form).1 = touched form
  ∧ submitting (setFieldValue_call rules name value form).1
    = submitting form
  ∧ (∀ write, (setFieldValue_call rules name value form).2 = Some write →
       writes_errors_only write).
Proof.
  unfold setFieldValue_call.
  set (form2 := set_dirty (insert name true)
                  (set_values (insert name value) form)).
  destruct (truthy_member id (get_member (touched form2) name)).
  - destruct (validateField_unawaited_frame rules name form2)
      as ((-> & -> & -> & ->) & Hwrite).
    split; [done|]. split; [done|]. split; [done|]. by split.
  - simpl. split; [done|]. split; [done|]. split; [done|]. by split.
Qed.

Lemma setFieldValue_values rules name value form :
  values (setFieldValue rules name value form) = <[name:=value]> (values form).
Proof. apply setFieldValue_call_frame. Qed.

Lemma submit_values rules onSubmit form :
  values (submit rules onSubmit form).2 = values form.
Proof.
  unfold submit, try_finally, bind, await, ret.
  destruct (validate_frame rules (set_submitting true form)) as (Hv & _).
  destruct (validate rules (set_submitting true form))
    as [[[|]|e|] form1]; simpl in *; try done.
  destruct (settle _); simpl; done.
Qed.


Lemma run_handle_snoc initialValues rules ops op :
  run_handle initialValues rules (ops ++ [op])
  = step rules (run_handle initialValues rules ops) op.
Proof. unfold run_handle. by rewrite foldl_app. Qed.

(** Every validation in flight writes [errors] only. *)
Lemma step_in_flight rules h op :
  Forall writes_errors_only (h_in_flight h) →
  Forall writes_errors_only (h_in_flight (step rules h op)).
Proof.
  intros Hok.
  destruct op as [name value|name err|name|name|name| |onSubmit| | |name|i
                 |key value|key]; simpl; try done.
  - apply Forall_app. split; [done|].
    pose proof (setFieldValue_call_frame rules name value (h_form h))
      as (_ & _ & _ & _ & Hwrite).
    destruct (setFieldValue_call rules name value (h_form h)).2 as [write|];
      simpl; [|done]. constructor; [by apply Hwrite|done].
  - apply Forall_app. split; [done|].
    pose proof (validateField_unawaited_frame rules name
                  (touchField name (h_form h))) as (_ & Hwrite).
    destruct (validateField_unawaited rules name
                (touchField name (h_form h))).2 as [write|];
      simpl; [|done]. constructor; [by apply Hwrite|done].
  - unfold settle_validation.
    destruct (h_in_flight h !! i) as [write|]; simpl; [|done].
    by apply Forall_delete.
Qed.

Lemma run_in_flight initialValues rules ops :
  Forall writes_errors_only (h_in_flight (run_handle initialValues rules ops)).
Proof.
  induction ops as [|op ops IH] using rev_ind; [constructor|].
  rewrite run_handle_snoc. by apply step_in_flight.
Qed.

(** What a step does to [values]. *)
Lemma step_values rules h op :
  Forall writes_errors_only (h_in_flight h) →
  values (h_form (step rules h op))
  = match op with
    | CallSetFieldValue name value => <[name:=value]> (values (h_form h))
    | CallReset => h_initial h ∪ values (h_form h)
    | _ => values (h_form h)
    end.
Proof.
  intros Hok.
  destruct op as [name value|name err|name|name|name| |onSubmit| | |name|i
                 |key value|key]; simpl; try done.
  - apply setFieldValue_call_frame.
  - by destruct (validateField_frame rules name (h_form h)) as (-> & _).
  - by destruct (validate_frame rules (h_form h)) as (-> & _).
  - apply submit_values.
  - apply watch_callback_values.
  - by destruct (validateField_unawaited_frame rules name
                   (touchField name (h_form h))) as ((-> & _) & _).
  - unfold settle_validation.
    destruct (h_in_flight h !! i) as [write|] eqn:Hi; simpl; [|done].
    apply (Forall_lookup_1 _ _ _ _ Hok) in Hi. by destruct (Hi (h_form h)).
Qed.



(** No step removes a key of [values]. *)
Lemma step_values_keys rules h op key :
  Forall writes_errors_only (h_in_flight h) →
  is_Some (values (h_form h) !! key) →
  is_Some (values (h_form (step rules h op)) !! key).
Proof.
  intros Hok [v Hv]. rewrite step_values by done.
  destruct op; try eauto.
  - destruct (decide (name = key)) as [->|Hne].
    + rewrite lookup_insert_eq. eauto.
    + rewrite lookup_insert_ne by done. eauto.
  - destruct (h_initial h !! key) as [v0|] eqn:Hinit.
    + exists v0. by apply lookup_union_Some_l.
    + exists v. by rewrite lookup_union_r.
Qed.





(** ** Validation never rejects *)

Lemma validateRule_never_rejects value rule e :
  validateRule value rule ≠ Rejected e.
Proof.
  unfold validateRule. destruct (required_fails rule value); [done|].
  destruct (validator rule) as [run|]; [|done].
  destruct (settle (run value)) as [result| |]; try done.
  destruct (strict_eq result (JBool true)); [done|]. by destruct result.
Qed.

Lemma check_rules_never_rejects name value fieldRules form e :
  (check_rules name value fieldRules form).1 ≠ Rejected e.
Proof.
  induction fieldRules as [|r rest IH]; simpl; [done|].
  pose proof (validateRule_never_rejects value r) as Hrule.
  destruct (validateRule value r) as [[|msg]|e'|]; simpl; try done.
  by specialize (Hrule e').
Qed.

Lemma validateField_never_rejects rules name form e :
  (validateField rules name form).1 ≠ Rejected e.
Proof.
  unfold validateField.
  destruct (fieldRules_read (read_rule rules name)); [|done].
  apply check_rules_never_rejects.
Qed.

Lemma Promise_all_never_rejects {A} (calls : list (M A)) form e :
  Forall (fun call => ∀ f e', (call f).1 ≠ Rejected e') calls →
  (Promise_all calls form).1 ≠ Rejected e.
Proof.
  intros Hcalls. revert form.
  induction Hcalls as [|call rest Hcall _ IH]; intros form; simpl; [done|].
  specialize (Hcall form). destruct (call form) as [r form1].
  specialize (IH form1). destruct (Promise_all rest form1) as [rs form2].
  simpl in *. destruct r as [a|e'|], rs as [l|e''|]; simpl; try done.
  - by specialize (Hcall e').
  - by specialize (Hcall e').
  - by specialize (Hcall e').
Qed.

Lemma validate_never_rejects rules form e :
  (validate rules form).1 ≠ Rejected e.
Proof.
  unfold validate. destruct rules as [rs|]; [|done]. unfold bind, ret.
  pose proof (Promise_all_never_rejects
    (map (validateField (Some rs)) rs.*1) form) as Hall.
  destruct (Promise_all _ form) as [[results|e'|] form']; simpl in *;
    try done.
  intros _. apply (Hall e'); [|done].
  apply Forall_forall. intros call Hin.
  apply list_elem_of_fmap in Hin as [name [-> _]]. intros f e''.
  apply validateField_never_rejects.
Qed.

(** ** [submit] *)

(** C2.  [submit(onSubmit)] sets [submitting], validates, and
    - when validation fails, fulfils with [submitting] false;
    - when validation passes and [onSubmit] returns or resolves, fulfils with
      [submitting] false;
    - when validation passes and [onSubmit] throws or rejects with [e],
      rejects with that same [e], the form it leaves having [submitting]
      false;
    and whenever the call completes at all, [submitting] is false. *)
Theorem submit_clears_submitting
    (rules : option FormRules)
    (onSubmit : gmap jsstring JsValue -> Outcome unit) (form : Form) :
  let started := set_submitting true form in
  (∀ form1, validate rules started = (Fulfilled false, form1) →
     submit rules onSubmit form = (Fulfilled tt, set_submitting false form1))
  ∧ (∀ form1, validate rules started = (Fulfilled true, form1) →
       (onSubmit (values form1) = Returns tt
        ∨ onSubmit (values form1) = ReturnsPromise (Fulfilled tt)) →
       submit rules onSubmit form
       = (Fulfilled tt, set_submitting false form1))
  ∧ (∀ form1 e, validate rules started = (Fulfilled true, form1) →
       (onSubmit (values form1) = Throws e
        ∨ onSubmit (values form1) = ReturnsPromise (Rejected e)) →
       submit rules onSubmit form
       = (Rejected e, set_submitting false form1))
  ∧ (∀ r form', submit rules onSubmit form = (r, form') →
       r ≠ Unsettled → submitting form' = false).
Proof.
  intros started. unfold submit, try_finally, bind, await, ret.
  fold started. repeat split.
  - intros form1 ->. done.
  - intros form1 -> [Hcb|Hcb]; rewrite Hcb; done.
  - intros form1 e -> [Hcb|Hcb]; rewrite Hcb; done.
  - intros r form'.
    destruct (validate rules started) as [[[|]|e|] form1]; simpl.
    + destruct (settle (onSubmit (values form1))) as [[]|e|];
        intros [= <- <-]; done.
    + intros [= <- <-]; done.
    + intros [= <- <-]; done.
    + intros [= <- <-]; done.
Qed.

(** C2 on three forms: validation fails; [onSubmit] resolves; [onSubmit]
    rejects. *)
Lemma submit_clears_submitting_witness :
  (submit login_rules resolving_handler (useForm login_initial)
   = (Fulfilled tt,
      set_submitting false
        (validate login_rules
           (set_submitting true (useForm login_initial))).2))
  ∧ (submit None resolving_handler (useForm login_initial)
     = (Fulfilled tt, useForm login_initial))
  ∧ (submit None rejecting_handler (useForm login_initial)
     = (Rejected (JStr (js "x")), useForm login_initial)).
Proof.
  split; [|split].
  - destruct (submit_clears_submitting login_rules resolving_handler
      (useForm login_initial)) as (Hfail & _).
    apply Hfail. vm_compute. reflexivity.
  - destruct (submit_clears_submitting None resolving_handler
      (useForm login_initial)) as (_ & Hok & _).
    apply (Hok (set_submitting true (useForm login_initial)));
      [reflexivity | by right].
  - destruct (submit_clears_submitting None rejecting_handler
      (useForm login_initial)) as (_ & _ & Hthrow & _).
    apply (Hthrow (set_submitting true (useForm login_initial)));
      [reflexivity | by right].
Defined.

(** ** [validateRule] and [validateField] *)

Lemma strict_eq_true_iff (result : JsValue) :
  strict_eq result (JBool true) = true ↔ result = JBool true.
Proof.
  destruct result as [| |[|]|n|s]; simpl; split; try done.
Qed.

Lemma is_absent_iff (value : JsValue) :
  is_absent value = true
  ↔ value = JUndefined ∨ value = JNull ∨ value = JStr [].
Proof.
  split.
  - destruct value as [| |b|n|s]; unfold is_absent; simpl;
      try discriminate; eauto.
    case_bool_decide as Hs; [|discriminate]. subst s. eauto.
  - intros [Hv|[Hv|Hv]]; by rewrite Hv.
Qed.



Section Field.
Context {host : Conversions}.

End Field.






(** C10.  When the validator of a rule returns, or resolves to, a value that
    is neither [true] nor a string, [validateRule] fails with the rule's
    message, or with the default failure message when the rule has no
    non-empty one.  (The validator is reached when the required check of the
    rule does not fail first.) *)
Theorem odd_validator_result_is_failure
    (rule : FormRule) (run : JsValue -> Outcome JsValue)
    (value result : JsValue) :
  validator rule = Some run →
  (run value = Returns result
   ∨ run value = ReturnsPromise (Fulfilled result)) →
  result ≠ JBool true →
  (∀ s, result ≠ JStr s) →
  required_fails rule value = false →
  validateRule value rule = Fulfilled (Failed (message_or rule msg_failed))
  ∧ (∀ m, message rule = Some m → m ≠ [] → message_or rule msg_failed = m)
  ∧ (message rule = None → message_or rule msg_failed = msg_failed).
Proof.
  intros Hrun Hresult Hnot_true Hnot_str Hreq. split; [|split].
  - unfold validateRule. rewrite Hreq, Hrun.
    assert (settle (run value) = Fulfilled result) as ->
      by (by destruct Hresult as [-> | ->]).
    destruct (strict_eq result (JBool true)) eqn:Heq.
    + by apply strict_eq_true_iff in Heq.
    + destruct result as [| |b|n|s]; try done. by specialize (Hnot_str s).
  - intros m Hm Hne. unfold message_or. rewrite Hm. by case_bool_decide.
  - intros Hm. unfold message_or. by rewrite Hm.
Qed.

(** C10 on a validator that returns [false]: the default failure message. *)
Lemma odd_validator_result_is_failure_witness :
  validator false_rule = Some (fun _ => Returns (JBool false))
  ∧ required_fails false_rule JNull = false
  ∧ validateRule JNull false_rule = Fulfilled (Failed msg_failed).
Proof.
  split; [reflexivity|]. split; [reflexivity|].
  destruct (odd_validator_result_is_failure false_rule _ JNull (JBool false)
    eq_refl (or_introl eq_refl)) as (Hfail & _).
  - discriminate.
  - discriminate.
  - reflexivity.
  - exact Hfail.
Defined.

(** ** [validate] *)

Lemma lookup_rule_is_Some (rs : FormRules) (key : jsstring) :
  is_Some (lookup_rule rs key) ↔ key ∈ rs.*1.
Proof.
  induction rs as [|[k rule] rs IH]; simpl.
  - split; [by intros [? ?]|by intros ?%elem_of_nil].
  - rewrite elem_of_cons. case_bool_decide as Hk.
    + split; [by left|eauto].
    + rewrite IH. split; [by right|]. by intros [?|?].
Qed.

Lemma check_rules_result_indep name value fieldRules form form' :
  (check_rules name value fieldRules form).1
  = (check_rules name value fieldRules form').1.
Proof.
  induction fieldRules as [|r rest IH]; simpl; [done|].
  by destruct (validateRule value r) as [[|msg]|e|].
Qed.

Lemma validateField_result_indep rules name form form' :
  get_value (values form) name = get_value (values form') name →
  (validateField rules name form).1 = (validateField rules name form').1.
Proof.
  intros Hvalue. unfold validateField.
  destruct (fieldRules_read (read_rule rules name)); [|done]. rewrite Hvalue.
  apply check_rules_result_indep.
Qed.

Lemma check_rules_errors_other name value fieldRules form key :
  key ≠ name →
  errors (check_rules name value fieldRules form).2 !! key
  = errors form !! key.
Proof.
  intros Hne. induction fieldRules as [|r rest IH]; simpl.
  - by rewrite lookup_delete_ne.
  - destruct (validateRule value r) as [[|msg]|e|]; simpl; try done.
    by rewrite lookup_insert_ne.
Qed.

Lemma validateField_errors_other rules name form key :
  key ≠ name →
  errors (validateField rules name form).2 !! key = errors form !! key.
Proof.
  intros Hne. unfold validateField.
  destruct (fieldRules_read (read_rule rules name)); [|done].
  by apply check_rules_errors_other.
Qed.

Lemma Promise_all_errors_other rules names form key :
  key ∉ names →
  errors (Promise_all (map (validateField rules) names) form).2 !! key
  = errors form !! key.
Proof.
  revert form. induction names as [|name names IH]; intros form Hnotin.
  - done.
  - apply not_elem_of_cons in Hnotin as [Hne Hnotin]. simpl.
    pose proof (validateField_errors_other rules name form key Hne) as Hone.
    destruct (validateField rules name form) as [r form1].
    specialize (IH form1 Hnotin).
    destruct (Promise_all _ form1) as [rs form2]. simpl in *. congruence.
Qed.

(** The joint result of the dispatched calls is the join of the results each
    call has on the form [validate] started from. *)
Lemma Promise_all_results rules names form :
  (Promise_all (map (validateField rules) names) form).1
  = foldr (fun name acc => join (validateField rules name form).1 acc)
      (Fulfilled []) names.
Proof.
  assert (∀ form', values form' = values form →
            (Promise_all (map (validateField rules) names) form').1
            = foldr (fun name acc => join (validateField rules name form).1 acc)
                (Fulfilled []) names) as Hgen.
  { induction names as [|name names IH]; intros form' Hvalues; [done|].
    simpl.
    pose proof (validateField_result_indep rules name form' form) as Hone.
    destruct (validateField_frame rules name form') as (Hframe & _).
    destruct (validateField rules name form') as [r form1]. simpl in *.
    specialize (IH form1). 
    destruct (Promise_all _ form1) as [rs form2]. simpl in *.
    rewrite Hone by (by rewrite Hvalues). f_equal. apply IH. congruence. }
  by apply Hgen.
Qed.

Lemma join_fulfilled {A} (r : Result A) (rs : Result (list A)) results :
  join r rs = Fulfilled results →
  ∃ a l, r = Fulfilled a ∧ rs = Fulfilled l ∧ results = a :: l.
Proof.
  destruct r as [a|e|], rs as [l|e'|]; simpl; try done.
  intros [= <-]. eauto.
Qed.

Lemma joined_all_true rules names form :
  (∃ results,
     foldr (fun name acc => join (validateField rules name form).1 acc)
       (Fulfilled []) names = Fulfilled results
     ∧ forallb id results = true)
  ↔ (∀ name, name ∈ names →
       (validateField rules name form).1 = Fulfilled true).
Proof.
  induction names as [|name names IH]; simpl.
  - split; [by intros _ ? ?%elem_of_nil|]. intros _. by exists [].
  - split.
    + intros (results & Hjoin & Hall).
      apply join_fulfilled in Hjoin as (a & l & Ha & Hl & ->).
      simpl in Hall. apply andb_true_iff in Hall as [Hid Hall].
      intros key [->|Hin]%elem_of_cons.
      * rewrite Ha. by rewrite <- Hid.
      * apply IH; [|done]. eauto.
    + intros Hall.
      destruct IH as [_ IH]. destruct IH as (l & Hl & Hforall).
      { intros key Hin. apply Hall. by right. }
      exists (true :: l). rewrite Hl.
      rewrite (Hall name) by (by left). done.
Qed.

Lemma validate_true_iff rules form :
  (validate rules form).1 = Fulfilled true
  ↔ (∀ key, is_Some (rule_for rules key) →
       (validateField rules key form).1 = Fulfilled true).
Proof.
  unfold rule_for. destruct rules as [rs|]; simpl.
  - pose proof (joined_all_true (Some rs) rs.*1 form) as Hjoin.
    rewrite <- Promise_all_results in Hjoin.
    assert (∀ key, is_Some (lookup_rule rs key) ↔ key ∈ rs.*1) as Hkeys
      by (intros key; apply lookup_rule_is_Some).
    unfold validate, bind, ret.
    destruct (Promise_all _ form) as [[results|e|] form']; simpl in *.
    + split.
      * intros [= Hall] key Hkey. apply Hjoin; [eauto|by apply Hkeys].
      * intros Hall. destruct Hjoin as [_ Hjoin].
        destruct Hjoin as (l & [= <-] & Hl).
        { intros key Hin. apply Hall. by apply Hkeys. }
        by rewrite Hl.
    + split; [done|]. intros Hall. destruct Hjoin as [_ Hjoin].
      destruct Hjoin as (l & ? & _); [|done].
      intros key Hin. apply Hall. by apply Hkeys.
    + split; [done|]. intros Hall. destruct Hjoin as [_ Hjoin].
      destruct Hjoin as (l & ? & _); [|done].
      intros key Hin. apply Hall. by apply Hkeys.
  - split; [|done]. by intros _ key [? ?].
Qed.



(** ** The status of a field binding *)

Lemma truthy_error_iff (f : Form) (name : jsstring) :
  truthy_member nonempty (get_member (errors f) name) = true
  ↔ (∃ m, errors f !! name = Some m ∧ m ≠ [])
    ∨ (errors f !! name = None ∧ inherited name = true).
Proof.
  unfold get_member. destruct (errors f !! name) as [m|]; simpl.
  - unfold nonempty. case_bool_decide as Hm; simpl.
    + split; [done|]. intros [(m' & [= <-] & Hne)|[? _]]; done.
    + split; [eauto|done].
  - destruct (inherited name); simpl.
    + split; [by right|done].
    + split; [done|]. by intros [(m & ? & _)|[_ ?]].
Qed.

Lemma truthy_touched_iff (f : Form) (name : jsstring) :
  truthy_member id (get_member (touched f) name) = true
  ↔ touched f !! name = Some true
    ∨ (touched f !! name = None ∧ inherited name = true).
Proof.
  unfold get_member. destruct (touched f !! name) as [[|]|]; simpl.
  - split; [by left|done].
  - split; [done|]. by intros [?|[? _]].
  - destruct (inherited name); simpl.
    + split; [by right|done].
    + split; [done|]. by intros [?|[_ ?]].
Qed.

(** C9, as the code has it.  The status of a field binding is ['error']
    exactly when [form.errors[name]] reads truthy: the field has a non-empty
    error message, or it has no error entry and its name is that of a member
    every object inherits ([constructor], [toString], ...).  It is
    ['success'] exactly when it is not ['error'] and [form.touched[name]]
    reads truthy: the field is touched, or it has no touched entry and its
    name is such an inherited one.  It is ['validating'] otherwise.  An
    error entry holding the empty string counts as no error. *)
Theorem status_of_field (name : jsstring) (form : option Form) :
  let has_error :=
    ∃ f, form = Some f
         ∧ ((∃ m, errors f !! name = Some m ∧ m ≠ [])
            ∨ (errors f !! name = None ∧ inherited name = true)) in
  let is_touched :=
    ∃ f, form = Some f
         ∧ (touched f !! name = Some true
            ∨ (touched f !! name = None ∧ inherited name = true)) in
  (status name form = error ↔ has_error)
  ∧ (status name form = success ↔ is_touched ∧ ¬ has_error)
  ∧ (status name form = validating ↔ ¬ is_touched ∧ ¬ has_error)
  ∧ status name form ≠ warning.
Proof.
  intros has_error is_touched. subst has_error is_touched.
  unfold status, field_error, field_touched.
  destruct form as [f|]; simpl.
  - pose proof (truthy_error_iff f name) as He.
    pose proof (truthy_touched_iff f name) as Ht.
    destruct (truthy_member nonempty (get_member (errors f) name));
      destruct (truthy_member id (get_member (touched f) name)); simpl.
    + split; [|split; [|split]]; try done.
      * split; [intros _|done]. exists f. split; [done|]. by apply He.
      * split; [done|]. intros [_ []]. exists f. split; [done|]. by apply He.
      * split; [done|]. intros [_ []]. exists f. split; [done|]. by apply He.
    + split; [|split; [|split]]; try done.
      * split; [intros _|done]. exists f. split; [done|]. by apply He.
      * split; [done|]. intros [_ []]. exists f. split; [done|]. by apply He.
      * split; [done|]. intros [_ []]. exists f. split; [done|]. by apply He.
    + split; [|split; [|split]]; try done.
      * split; [done|]. intros (f' & [= <-] & Herr). by apply He in Herr.
      * split; [intros _|done]. split.
        -- exists f. split; [done|]. by apply Ht.
        -- intros (f' & [= <-] & Herr). by apply He in Herr.
      * split; [done|]. intros [[] _]. exists f. split; [done|]. by apply Ht.
    + split; [|split; [|split]]; try done.
      * split; [done|]. intros (f' & [= <-] & Herr). by apply He in Herr.
      * split; [done|]. intros [(f' & [= <-] & Htouched) _].
        by apply Ht in Htouched.
      * split; [intros _|done]. split.
        -- intros (f' & [= <-] & Htouched). by apply Ht in Htouched.
        -- intros (f' & [= <-] & Herr). by apply He in Herr.
  - split; [|split; [|split]]; try done.
    + split; [done|]. by intros (f & ? & _).
    + split; [done|]. by intros [(f & ? & _) _].
    + split; [intros _|done]. split; by intros (f & ? & _).
Qed.

(** C9 as stated fails.  After [setFieldError(name, '')] the field has an
    error entry, and the form is not valid, yet the status is not
    ['error']; once touched it is ['success'].  And on a form that has just
    been constructed, with no error message anywhere, the status of the name
    [constructor] is ['error']. *)
Lemma status_ignores_empty_error :
  let form := setFieldError (js "email") [] (useForm login_initial) in
  is_Some (errors form !! js "email")
  ∧ valid form = false
  ∧ status (js "email") (Some form) = validating
  ∧ status (js "email") (Some (touchField (js "email") form)) = success
  ∧ errors (useForm login_initial) = ∅
  ∧ status (js "constructor") (Some (useForm login_initial)) = error.
Proof.
  split; [by exists []|]. split; [reflexivity|]. split; [reflexivity|].
  split; [reflexivity|]. split; reflexivity.
Qed.

(** ** The built-in rules on absent values *)

Section Builtin.
Context {host : Conversions}.

(** C7, as the code has it.  Every built-in rule other than [required]
    passes [undefined] and [null]; [email], [minLength], [maxLength],
    [pattern] and [number] pass the empty string too; [min] and [max] compare
    the empty string as the number 0 with their bound, so they pass it
    exactly when 0 is within the bound; [required] rejects all three. *)
Theorem builtin_rules_on_absent_values
    (message : option jsstring) (bound : JsNumber) (regex : RegExp) :
  let passes := fun rule value => validateRule value rule = Fulfilled Passed in
  (∀ value, value = JUndefined ∨ value = JNull →
     passes (validators.email message) value
     ∧ passes (validators.minLength bound message) value
     ∧ passes (validators.maxLength bound message) value
     ∧ passes (validators.pattern regex message) value
     ∧ passes (validators.number message) value
     ∧ passes (validators.min bound message) value
     ∧ passes (validators.max bound message) value)
  ∧ (passes (validators.email message) (JStr [])
     ∧ passes (validators.minLength bound message) (JStr [])
     ∧ passes (validators.maxLength bound message) (JStr [])
     ∧ passes (validators.pattern regex message) (JStr [])
     ∧ passes (validators.number message) (JStr []))
  ∧ (passes (validators.min bound message) (JStr [])
     ↔ js_ge (JNum (Finite 0)) bound = true)
  ∧ (passes (validators.max bound message) (JStr [])
     ↔ js_le (JNum (Finite 0)) bound = true)
  ∧ (∀ value, value = JUndefined ∨ value = JNull ∨ value = JStr [] →
       ∃ msg, validateRule value (validators.required message)
              = Fulfilled (Failed msg)).
Proof.
  intros passes. subst passes. split; [|split; [|split; [|split]]].
  - intros value [-> | ->]; repeat split; reflexivity.
  - repeat split; reflexivity.
  - assert (js_ge (JStr []) bound = js_ge (JNum (Finite 0)) bound) as Hzero
      by (unfold js_ge; simpl; by rewrite StringToNumber_empty).
    unfold validateRule. simpl. rewrite Hzero.
    unfold validators.or_message_or.
    destruct (js_ge (JNum (Finite 0)) bound); simpl;
      split; try done; by destruct (truthy_str message).
  - assert (js_le (JStr []) bound = js_le (JNum (Finite 0)) bound) as Hzero
      by (unfold js_le; simpl; by rewrite StringToNumber_empty).
    unfold validateRule. simpl. rewrite Hzero.
    unfold validators.or_message_or.
    destruct (js_le (JNum (Finite 0)) bound); simpl;
      split; try done; by destruct (truthy_str message).
  - intros value Habsent. apply is_absent_iff in Habsent.
    unfold validateRule, required_fails. simpl. rewrite Habsent. eauto.
Qed.
End Builtin.

(** C7 as stated fails: [min(1)] rejects the empty string, with its default
    message ending in ["1"], and [max(-1)] rejects it too. *)
Lemma min_max_reject_empty_string :
  is_absent (JStr []) = true
  ∧ validateRule (JStr [])
      (validators.min (host:=decimal_host) (Finite 1) None)
    = Fulfilled (Failed [20540; 19981; 33021; 23567; 20110; 49]%N)
  ∧ validateRule (JStr [])
      (validators.max (host:=decimal_host) (Finite (-1)) None)
    = Fulfilled (Failed [20540; 19981; 33021; 22823; 20110; 45; 49]%N).
Proof.
  split; [reflexivity|]. split; vm_compute; reflexivity.
Qed.

(** * Further properties of the form engine *)

(** ** One field's validation *)

(** A call of the loop of [validateField] ends in one of three ways. *)
Lemma check_rules_cases name value fieldRules form :
  (∃ msg, check_rules name value fieldRules form
          = (Fulfilled false, set_errors (insert name msg) form))
  ∨ check_rules name value fieldRules form
    = (Fulfilled true, set_errors (delete name) form)
  ∨ check_rules name value fieldRules form = (Unsettled, form).
Proof.
  induction fieldRules as [|r rest IH]; simpl.
  - by right; left.
  - pose proof (validateRule_never_rejects value r) as Hnever.
    destruct (validateRule value r) as [[|msg]|e|]; eauto.
    by specialize (Hnever e).
Qed.


(** The error entry of a field agrees with the result of its validation.
    For a field that has a rule, when [validateField] fulfils, the field has
    an error entry afterwards exactly when the result is false; a validation
    that never settles leaves the form as it is. *)
Theorem validateField_entry_iff_failed
    (rules : option FormRules) (name : jsstring) (form form' : Form)
    (r : Result bool) :
  is_Some (rule_for rules name) →
  validateField rules name form = (r, form') →
  (∀ b, r = Fulfilled b → (is_Some (errors form' !! name) ↔ b = false))
  ∧ (r = Unsettled → form' = form).
Proof.
  intros [spec Hspec]. rewrite (validateField_own _ _ _ _ Hspec).
  destruct (check_rules_cases name (get_value (values form) name)
              (fieldRules_of spec) form) as [[msg ->]|[-> | ->]];
    intros [= <- <-]; split; try done; intros b [= <-]; simpl.
  - rewrite lookup_insert_eq. split; [done|eauto].
  - rewrite lookup_delete_eq. split; [by intros [? ?]|done].
Qed.

(** On the login form the empty [email] fails and gets an entry. *)
Lemma validateField_entry_iff_failed_witness :
  is_Some (rule_for login_rules (js "email"))
  ∧ is_Some (errors (validateField login_rules (js "email")
                       (useForm login_initial)).2 !! js "email").
Proof.
  assert (is_Some (rule_for login_rules (js "email"))) as Hrule
    by (vm_compute; eauto).
  split; [exact Hrule|].
  destruct (validateField_entry_iff_failed login_rules (js "email")
    (useForm login_initial)
    (validateField login_rules (js "email") (useForm login_initial)).2
    (Fulfilled false) Hrule) as (Hentry & _).
  - vm_compute. reflexivity.
  - by apply (Hentry false).
Defined.

Lemma check_rules_idempotent name value fieldRules form :
  check_rules name value fieldRules
    (check_rules name value fieldRules form).2
  = check_rules name value fieldRules form.
Proof.
  induction fieldRules as [|r rest IH]; simpl.
  - unfold set_errors; simpl. by rewrite delete_delete_eq.
  - destruct (validateRule value r) as [[|msg]|e|]; simpl.
    + apply IH.
    + unfold set_errors; simpl. by rewrite insert_insert_eq.
    + done.
    + done.
Qed.

Lemma validateField_twice
    (rules : option FormRules) (name : jsstring) (form : Form) :
  validateField rules name (validateField rules name form).2
  = validateField rules name form.
Proof.
  unfold validateField.
  destruct (fieldRules_read (read_rule rules name)) as [fieldRules|].
  - destruct (check_rules_frame name (get_value (values form) name)
                fieldRules form) as (Hvalues & _).
    rewrite Hvalues. apply check_rules_idempotent.
  - done.
Qed.

(** ** All fields' validation *)


Lemma check_rules_errors_own name value fieldRules form form' :
  errors form !! name = errors form' !! name →
  errors (check_rules name value fieldRules form).2 !! name
  = errors (check_rules name value fieldRules form').2 !! name.
Proof.
  intros Hsame. induction fieldRules as [|r rest IH]; simpl.
  - by rewrite !lookup_delete_eq.
  - destruct (validateRule value r) as [[|msg]|e|]; simpl; try done.
    by rewrite !lookup_insert_eq.
Qed.

Lemma validateField_errors_own rules name form form' :
  get_value (values form) name = get_value (values form') name →
  errors form !! name = errors form' !! name →
  errors (validateField rules name form).2 !! name
  = errors (validateField rules name form').2 !! name.
Proof.
  intros Hvalue Hsame. unfold validateField.
  destruct (fieldRules_read (read_rule rules name)); [|done]. rewrite Hvalue.
  by apply check_rules_errors_own.
Qed.

Lemma validateField_twice_errors rules name form :
  errors (validateField rules name (validateField rules name form).2).2
  = errors (validateField rules name form).2.
Proof.
  by rewrite validateField_twice.
Qed.

Lemma Promise_all_errors_own rules names form key :
  key ∈ names →
  errors (Promise_all (map (validateField rules) names) form).2 !! key
  = errors (validateField rules key form).2 !! key.
Proof.
  revert form. induction names as [|name names IH]; intros form Hin.
  - by apply elem_of_nil in Hin.
  - simpl.
    pose proof (validateField_frame rules name form) as (Hvalues & _).
    pose proof (validateField_errors_other rules name form key) as Hother.
    pose proof (validateField_twice_errors rules name form) as Htwice.
    destruct (validateField rules name form) as [r form1] eqn:Hone.
    simpl in *.
    pose proof (Promise_all_errors_other rules names form1 key) as Hrest.
    specialize (IH form1).
    destruct (Promise_all _ form1) as [rs form2]. simpl in *.
    destruct (decide (key ∈ names)) as [Hnames|Hnames].
    + rewrite IH by done.
      destruct (decide (key = name)) as [->|Hne].
      * by rewrite Htwice, Hone.
      * apply validateField_errors_own; [by rewrite Hvalues|by apply Hother].
    + rewrite Hrest by done.
      apply elem_of_cons in Hin as [->|Hin]; [|done]. by rewrite Hone.
Qed.

Lemma validate_errors_own_rule
    (rules : option FormRules) (form : Form) (key : jsstring) :
  is_Some (rule_for rules key) →
  errors (validate rules form).2 !! key
  = errors (validateField rules key form).2 !! key.
Proof.
  intros Hrule. unfold validate. destruct rules as [rs|].
  - unfold bind, ret.
    pose proof (Promise_all_errors_own (Some rs) rs.*1 form key) as Hown.
    rewrite <- Hown by (by apply lookup_rule_is_Some).
    by destruct (Promise_all _ form) as [[results|e|] form'].
  - by destruct Hrule.
Qed.

Lemma validate_errors_no_rule
    (rules : option FormRules) (form : Form) (key : jsstring) :
  rule_for rules key = None →
  errors (validate rules form).2 !! key = errors form !! key.
Proof.
  intros Hnone. unfold validate. destruct rules as [rs|]; [|done].
  unfold bind, ret.
  pose proof (Promise_all_errors_other (Some rs) rs.*1 form key) as Hother.
  rewrite <- Hother.
  - by destruct (Promise_all _ form) as [[results|e|] form'].
  - intros Hin. apply lookup_rule_is_Some in Hin. simpl in Hnone.
    rewrite Hnone in Hin. by destruct Hin.
Qed.

Lemma validate_result_agree rules form form' :
  values form = values form' →
  (validate rules form).1 = (validate rules form').1.
Proof.
  intros Hvalues. unfold validate. destruct rules as [rs|]; [|done].
  unfold bind, ret.
  assert (foldr (fun key acc =>
                   join (validateField (Some rs) key form).1 acc)
            (Fulfilled []) rs.*1
          = foldr (fun key acc =>
                     join (validateField (Some rs) key form').1 acc)
              (Fulfilled []) rs.*1) as Hsame.
  { induction (rs.*1) as [|key keys IH]; simpl; [done|].
    rewrite IH. f_equal. apply validateField_result_indep.
    by rewrite Hvalues. }
  pose proof (Promise_all_results (Some rs) rs.*1 form) as Hres.
  pose proof (Promise_all_results (Some rs) rs.*1 form') as Hres'.
  rewrite Hsame, <- Hres' in Hres.
  destruct (Promise_all _ form) as [r1 f1].
  destruct (Promise_all _ form') as [r2 f2]. simpl in Hres. subst r2.
  by destruct r1.
Qed.

Lemma joined_outcome rules names form :
  let joined :=
    foldr (fun name acc => join (validateField rules name form).1 acc)
      (Fulfilled []) names in
  (∀ e, joined ≠ Rejected e)
  ∧ (joined = Unsettled
     ↔ ∃ name, name ∈ names
               ∧ (validateField rules name form).1 = Unsettled).
Proof.
  induction names as [|name names [IHrej IHuns]]; simpl.
  - split; [done|]. split; [done|]. by intros (name & ?%elem_of_nil & _).
  - pose proof (validateField_never_rejects rules name form) as Hnever.
    destruct (validateField rules name form).1 as [b|e|] eqn:Hone;
      [| by specialize (Hnever e) |].
    + destruct (foldr _ _ names) as [l|e|] eqn:Hrest; simpl.
      * split; [done|]. split; [done|].
        intros (key & [->|Hin]%elem_of_cons & Hkey); [congruence|].
        destruct IHuns as [_ IH]. by specialize (IH (ex_intro _ key (conj Hin Hkey))).
      * by specialize (IHrej e).
      * split; [done|]. split; [|done]. intros _.
        destruct IHuns as [IH _]. destruct (IH eq_refl) as (key & Hin & Hkey).
        exists key. split; [by right|done].
    + destruct (foldr _ _ names) as [l|e|] eqn:Hrest; simpl.
      * split; [done|]. split; [|done]. intros _. exists name.
        split; [by left|done].
      * by specialize (IHrej e).
      * split; [done|]. split; [|done]. intros _. exists name.
        split; [by left|done].
Qed.

Lemma joined_some_false rules names form results :
  foldr (fun name acc => join (validateField rules name form).1 acc)
    (Fulfilled []) names = Fulfilled results →
  forallb id results = false →
  ∃ name, name ∈ names
          ∧ (validateField rules name form).1 = Fulfilled false.
Proof.
  revert results. induction names as [|name names IH]; simpl;
    intros results Hjoin Hall.
  - injection Hjoin as <-. done.
  - apply join_fulfilled in Hjoin as (a & l & Ha & Hl & ->).
    simpl in Hall. apply andb_false_iff in Hall as [Hid|Hall].
    + exists name. split; [by left|]. rewrite Ha. by rewrite <- Hid.
    + destruct (IH l Hl Hall) as (key & Hin & Hkey).
      exists key. split; [by right|done].
Qed.

Lemma validate_result_joined rs form :
  (validate (Some rs) form).1
  = match foldr (fun name acc =>
                   join (validateField (Some rs) name form).1 acc)
            (Fulfilled []) rs.*1 with
    | Fulfilled results => Fulfilled (forallb id results)
    | Rejected e => Rejected e
    | Unsettled => Unsettled
    end.
Proof.
  rewrite <- Promise_all_results. unfold validate, bind, ret.
  by destruct (Promise_all _ form) as [[results|e|] form'].
Qed.

Lemma validate_outcome_aux (rules : option FormRules) (form : Form) :
  (∀ e, (validate rules form).1 ≠ Rejected e)
  ∧ ((validate rules form).1 = Unsettled
     ↔ ∃ key, is_Some (rule_for rules key)
              ∧ (validateField rules key form).1 = Unsettled)
  ∧ ((validate rules form).1 = Fulfilled false
     ↔ (∀ key, is_Some (rule_for rules key) →
          (validateField rules key form).1 ≠ Unsettled)
       ∧ ∃ key, is_Some (rule_for rules key)
                ∧ (validateField rules key form).1 = Fulfilled false).
Proof.
  split; [apply validate_never_rejects|].
  destruct rules as [rs|]; [|simpl].
  - assert (∀ key, is_Some (rule_for (Some rs) key) ↔ key ∈ rs.*1) as Hkeys
      by (intros key; apply lookup_rule_is_Some).
    rewrite validate_result_joined.
    destruct (joined_outcome (Some rs) rs.*1 form) as [Hrej Huns].
    pose proof (joined_some_false (Some rs) rs.*1 form) as Hfalse.
    pose proof (joined_all_true (Some rs) rs.*1 form) as Htrue.
    simpl in Hrej, Huns.
    destruct (foldr _ _ rs.*1) as [results|e|]; [| by specialize (Hrej e) |].
    + assert (∀ key, is_Some (rule_for (Some rs) key) →
                (validateField (Some rs) key form).1 ≠ Unsettled)
        as Hsettled.
      { intros key Hkey Hpend. destruct Huns as [_ Huns].
        assert (Fulfilled results = (Unsettled : Result (list bool)))
          as Habs; [|done].
        apply Huns. exists key. split; [by apply Hkeys|done]. }
      split.
      * split; [done|]. intros (key & Hkey & Hpend).
        by destruct (Hsettled key Hkey).
      * split.
        -- intros [= Hall]. split; [exact Hsettled|].
           destruct (Hfalse results eq_refl Hall) as (key & Hin & Hkey).
           exists key. split; [by apply Hkeys|done].
        -- intros (_ & key & Hkey & Hfail).
           destruct (forallb id results) eqn:Hall; [|done].
           destruct Htrue as [Htrue _].
           rewrite (Htrue (ex_intro _ results (conj eq_refl Hall)) key) in Hfail;
             [done|by apply Hkeys].
    + split.
      * split; [|done]. intros _. destruct Huns as [Huns _].
        destruct (Huns eq_refl) as (key & Hin & Hkey). exists key.
        split; [by apply Hkeys|done].
      * split; [done|]. intros (Hsettle & _). destruct Huns as [Huns _].
        destruct (Huns eq_refl) as (key & Hin & Hkey).
        destruct (Hsettle key); [by apply Hkeys|done].
  - split.
    + split; [done|]. by intros (key & [? ?] & _).
    + split; [done|]. by intros (_ & key & [? ?] & _).
Qed.

(** [validate()] never rejects; it stays unsettled exactly when the
    validation of some field with a rule does; and it fulfils with false
    exactly when all of them settle and one of them fails. *)
Theorem validate_outcome (rules : option FormRules) (form : Form) :
  (∀ e, (validate rules form).1 ≠ Rejected e)
  ∧ ((validate rules form).1 = Unsettled
     ↔ ∃ key, is_Some (rule_for rules key)
              ∧ (validateField rules key form).1 = Unsettled)
  ∧ ((validate rules form).1 = Fulfilled false
     ↔ (∀ key, is_Some (rule_for rules key) →
          (validateField rules key form).1 ≠ Unsettled)
       ∧ ∃ key, is_Some (rule_for rules key)
                ∧ (validateField rules key form).1 = Fulfilled false).
Proof. apply validate_outcome_aux. Qed.

Lemma validateField_failed_entry rules key form :
  (validateField rules key form).1 = Fulfilled false →
  is_Some (errors (validateField rules key form).2 !! key).
Proof.
  unfold validateField.
  destruct (fieldRules_read (read_rule rules key)) as [fieldRules|]; [|done].
  destruct (check_rules_cases key (get_value (values form) key)
              fieldRules form) as [[msg ->]|[-> | ->]];
    simpl; try done.
  intros _. rewrite lookup_insert_eq. eauto.
Qed.

Lemma validateField_passed_entry rules key form :
  is_Some (rule_for rules key) →
  (validateField rules key form).1 = Fulfilled true →
  errors (validateField rules key form).2 !! key = None.
Proof.
  intros [spec Hspec]. rewrite (validateField_own _ _ _ _ Hspec).
  destruct (check_rules_cases key (get_value (values form) key)
              (fieldRules_of spec) form) as [[msg ->]|[-> | ->]];
    simpl; try done.
  intros _. by rewrite lookup_delete_eq.
Qed.

(** How [validate()] and the [valid] flag go together.  When [validate()]
    fulfils with false the form is not valid afterwards.  When it fulfils
    with true no field with a rule has an error entry afterwards, but the
    form is valid only if the fields without rules had no entry either:
    [validate()] does not look at the entries [setFieldError] put on them. *)
Theorem validate_and_valid (rules : option FormRules) (form : Form) :
  ((validate rules form).1 = Fulfilled false →
     valid (validate rules form).2 = false)
  ∧ ((validate rules form).1 = Fulfilled true →
       (∀ key, is_Some (rule_for rules key) →
          errors (validate rules form).2 !! key = None)
       ∧ (valid (validate rules form).2 = true
          ↔ ∀ key, rule_for rules key = None → errors form !! key = None)).
Proof.
  split.
  - intros Hfalse.
    destruct (validate_outcome_aux rules form) as (_ & _ & [Hex _]).
    destruct (Hex Hfalse) as (_ & key & Hrule & Hkey).
    apply validateField_failed_entry in Hkey as [msg Hmsg].
    rewrite <- validate_errors_own_rule in Hmsg by done.
    destruct (valid (validate rules form).2) eqn:Hvalid; [|done].
    apply valid_true_iff in Hvalid. rewrite Hvalid in Hmsg.
    by rewrite lookup_empty in Hmsg.
  - intros Htrue.
    pose proof (proj1 (validate_true_iff rules form) Htrue) as Hall.
    assert (∀ key, is_Some (rule_for rules key) →
              errors (validate rules form).2 !! key = None) as Hruled.
    { intros key Hkey. rewrite validate_errors_own_rule by done.
      apply validateField_passed_entry; [done|by apply Hall]. }
    split; [exact Hruled|]. rewrite valid_true_iff. split.
    + intros Hempty key Hnone.
      rewrite <- (validate_errors_no_rule rules form key Hnone).
      by rewrite Hempty.
    + intros Hunruled. apply map_empty. intros key.
      destruct (rule_for rules key) as [spec|] eqn:Hspec.
      * apply Hruled. by rewrite Hspec.
      * rewrite (validate_errors_no_rule rules form key Hspec).
        by apply Hunruled.
Qed.

(** On the login form, with an error put on a field that has no rule:
    once [email] is valid [validate()] fulfils with true, yet the form is
    not valid. *)
Lemma validate_and_valid_witness :
  let form :=
    setFieldError (js "name") (js "taken")
      (setFieldValue login_rules (js "email") (JStr (js "a@b.com"))
         (useForm login_initial)) in
  (validate login_rules form).1 = Fulfilled true
  ∧ (∀ key, is_Some (rule_for login_rules key) →
       errors (validate login_rules form).2 !! key = None)
  ∧ valid (validate login_rules form).2 = false.
Proof.
  intros form.
  assert ((validate login_rules form).1 = Fulfilled true) as Htrue
    by (vm_compute; reflexivity).
  destruct (validate_and_valid login_rules form) as (_ & Hpass).
  destruct (Hpass Htrue) as (Hruled & _).
  split; [exact Htrue|]. split; [exact Hruled|]. vm_compute. reflexivity.
Defined.

(** ** [submit] and the handler *)

Lemma validate_errors_agree rules form form' :
  values form = values form' → errors form = errors form' →
  errors (validate rules form).2 = errors (validate rules form').2.
Proof.
  intros Hvalues Herrors. apply map_eq. intros key.
  destruct (rule_for rules key) as [spec|] eqn:Hspec.
  - rewrite !validate_errors_own_rule by (by rewrite Hspec).
    apply validateField_errors_own; [by rewrite Hvalues|by rewrite Herrors].
  - rewrite !validate_errors_no_rule by done. by rewrite Herrors.
Qed.

(** What [submit(onSubmit)] does to the form and with the handler.  It
    leaves [values], [touched] and [dirty] as they are and [errors] as
    [validate()] leaves them.  When validation passes, the handler is called
    on the current values and its fate is the fate of [submit]; when
    validation does not pass, the handler plays no part: [submit] behaves the
    same whatever handler it is given. *)
Theorem submit_outcome
    (rules : option FormRules)
    (onSubmit : gmap jsstring JsValue -> Outcome unit) (form : Form) :
  let after := (submit rules onSubmit form).2 in
  values after = values form
  ∧ touched after = touched form
  ∧ dirty after = dirty form
  ∧ errors after = errors (validate rules form).2
  ∧ ((validate rules form).1 = Fulfilled true →
       (submit rules onSubmit form).1 = settle (onSubmit (values form)))
  ∧ ((validate rules form).1 ≠ Fulfilled true →
       ∀ other, submit rules other form = submit rules onSubmit form).
Proof.
  intros after. subst after. unfold submit, try_finally, bind, await, ret.
  pose proof (validate_frame rules (set_submitting true form))
    as (Hv & Ht & Hd & _).
  pose proof (validate_result_agree rules (set_submitting true form) form
                eq_refl) as Hres.
  pose proof (validate_errors_agree rules (set_submitting true form) form
                eq_refl eq_refl) as Herr.
  destruct (validate rules (set_submitting true form)) as [r form1].
  simpl in *. rewrite <- Hres. clear Hres.
  destruct r as [[|]|e|]; simpl.
  - rewrite Hv.
    destruct (settle (onSubmit (values form))) as [[]|e|] eqn:Hcb; simpl;
      repeat split; try done.
  - repeat split; done.
  - repeat split; done.
  - repeat split; done.
Qed.

(** ** [setFieldValue], [setFieldError], [clearFieldError] *)





(** ** The watcher on [values] *)

Lemma watch_fold_frame initialValues keys form :
  let form' :=
    foldl
      (fun acc key =>
         if negb (strict_eq (get_value (values acc) key)
                    (get_value initialValues key))
         then set_dirty (insert key true) acc
         else acc)
      form keys in
  values form' = values form ∧ errors form' = errors form
  ∧ touched form' = touched form ∧ submitting form' = submitting form.
Proof.
  revert form. induction keys as [|k keys IH]; intros form; simpl.
  - done.
  - destruct (negb _); [|apply IH].
    destruct (IH (set_dirty (insert k true) form)) as (-> & -> & -> & ->).
    done.
Qed.

Lemma watch_fold_dirty initialValues keys form key :
  let differs k :=
    negb (strict_eq (get_value (values form) k)
            (get_value initialValues k)) in
  dirty (foldl
           (fun acc k =>
              if negb (strict_eq (get_value (values acc) k)
                         (get_value initialValues k))
              then set_dirty (insert k true) acc
              else acc)
           form keys) !! key
  = if decide (key ∈ keys ∧ differs key = true) then Some true
    else dirty form !! key.
Proof.
  cbv zeta. revert form.
  induction keys as [|k keys IH]; intros form; cbn [foldl].
  - case_decide as Hin; [|done]. destruct Hin as [Hin _].
    by apply elem_of_nil in Hin.
  - destruct (negb (strict_eq (get_value (values form) k)
                      (get_value initialValues k))) eqn:Hk.
    + rewrite IH. cbn [set_dirty values dirty].
      destruct (decide (key = k)) as [->|Hne].
      * rewrite lookup_insert_eq.
        rewrite (decide_True (P := k ∈ k :: keys ∧ _));
          [|split; [by left|done]].
        by destruct (decide _).
      * rewrite lookup_insert_ne by done.
        apply decide_ext. rewrite elem_of_cons. tauto.
    + rewrite IH. apply decide_ext. rewrite elem_of_cons.
      split; [tauto|]. intros [[->|Hin] Hd]; [congruence|done].
Qed.

Lemma watch_callback_dirty initialValues form key :
  dirty (watch_callback initialValues form) !! key
  = if decide (key ∈ Object_keys (values form)
               ∧ negb (strict_eq (get_value (values form) key)
                         (get_value initialValues key)) = true)
    then Some true
    else dirty form !! key.
Proof. apply watch_fold_dirty. Qed.

Lemma watch_callback_frame initialValues form :
  values (watch_callback initialValues form) = values form
  ∧ errors (watch_callback initialValues form) = errors form
  ∧ touched (watch_callback initialValues form) = touched form
  ∧ submitting (watch_callback initialValues form) = submitting form.
Proof. apply watch_fold_frame. Qed.


(** ** Invariants of the reachable states *)

Lemma submit_maps rules onSubmit form :
  touched (submit rules onSubmit form).2 = touched form
  ∧ dirty (submit rules onSubmit form).2 = dirty form.
Proof.
  unfold submit, try_finally, bind, await, ret.
  destruct (validate_frame rules (set_submitting true form))
    as (_ & Ht & Hd & _).
  destruct (validate rules (set_submitting true form))
    as [[[|]|e|] form1]; simpl in *; try done.
  destruct (settle _); simpl; done.
Qed.

(** In every state a form handle can reach: a [touched] or [dirty] entry is
    never false; every dirty key is a key of [values]; and every field of the
    initial values is still a key of [values] (no call removes a value). *)
Theorem reachable_flags
    (initialValues : gmap jsstring JsValue) (rules : option FormRules)
    (ops : list Op) :
  let form := run initialValues rules ops in
  (∀ key b, touched form !! key = Some b → b = true)
  ∧ (∀ key b, dirty form !! key = Some b →
       b = true ∧ is_Some (values form !! key))
  ∧ (∀ key, is_Some (initialValues !! key) → is_Some (values form !! key)).
Proof.
  unfold run. induction ops as [|op ops IH] using rev_ind.
  - simpl. by repeat split.
  - rewrite run_handle_snoc.
    pose proof (run_in_flight initialValues rules ops) as Hok.
    set (h := run_handle initialValues rules ops) in *.
    simpl in IH. destruct IH as (Htouched & Hdirty & Hinit).
    assert (∀ key, is_Some (initialValues !! key) →
              is_Some (values (h_form (step rules h op)) !! key)) as Hinit'.
    { intros key Hkey. apply step_values_keys; [done|by apply Hinit]. }
    assert (∀ key b, dirty (h_form h) !! key = Some b →
              b = true ∧ is_Some (values (h_form (step rules h op)) !! key))
      as Hdirty'.
    { intros key b Hkey. destruct (Hdirty key b Hkey) as [-> Hvalues].
      split; [done|]. by apply step_values_keys. }
    simpl. split; [|split; [|exact Hinit']].
    + destruct op as [name value|name err|name|name|name| |onSubmit| | |name|i
                     |key value|key]; simpl; try done.
      * by destruct (setFieldValue_call_frame rules name value (h_form h))
          as (_ & _ & -> & _).
      * intros key b. destruct (decide (name = key)) as [->|Hne].
        -- rewrite lookup_insert_eq. by intros [= <-].
        -- rewrite lookup_insert_ne by done. apply Htouched.
      * by destruct (validateField_frame rules name (h_form h))
          as (_ & -> & _).
      * by destruct (validate_frame rules (h_form h)) as (_ & -> & _).
      * by destruct (submit_maps rules onSubmit (h_form h)) as (-> & _).
      * by rewrite delete_all_keys_empty.
      * by destruct (watch_callback_frame (h_initial h) (h_form h))
          as (_ & _ & -> & _).
      * destruct (validateField_unawaited_frame rules name
                    (touchField name (h_form h))) as ((_ & -> & _) & _).
        simpl. intros key b. destruct (decide (name = key)) as [->|Hne].
        -- rewrite lookup_insert_eq. by intros [= <-].
        -- rewrite lookup_insert_ne by done. apply Htouched.
      * unfold settle_validation.
        destruct (h_in_flight h !! i) as [write|] eqn:Hi; simpl; [|done].
        apply (Forall_lookup_1 _ _ _ _ Hok) in Hi.
        by destruct (Hi (h_form h)) as (_ & -> & _).
    + intros key b Hkey.
      destruct op as [name value|name err|name|name|name| |onSubmit| | |name|i
                     |key' value|key']; simpl in Hkey;
        try (by apply Hdirty').
      * destruct (setFieldValue_call_frame rules name value (h_form h))
          as (Hv & Hd & _).
        rewrite Hd in Hkey. destruct (decide (name = key)) as [->|Hne].
        -- rewrite lookup_insert_eq in Hkey. injection Hkey as <-.
           split; [done|]. simpl. rewrite Hv, lookup_insert_eq. eauto.
        -- rewrite lookup_insert_ne in Hkey by done. by apply Hdirty'.
      * destruct (validateField_frame rules name (h_form h))
          as (_ & _ & Hd & _).
        rewrite Hd in Hkey. by apply Hdirty'.
      * destruct (validate_frame rules (h_form h)) as (_ & _ & Hd & _).
        rewrite Hd in Hkey. by apply Hdirty'.
      * destruct (submit_maps rules onSubmit (h_form h)) as (_ & Hd).
        rewrite Hd in Hkey. by apply Hdirty'.
      * by rewrite delete_all_keys_empty in Hkey.
      * rewrite watch_callback_dirty in Hkey. case_decide as Hcond.
        -- injection Hkey as <-. split; [done|]. simpl.
           rewrite watch_callback_values. destruct Hcond as [Hin _].
           by apply Object_keys_elem.
        -- by apply Hdirty'.
      * destruct (validateField_unawaited_frame rules name
                    (touchField name (h_form h))) as ((_ & _ & Hd & _) & _).
        rewrite Hd in Hkey. by apply Hdirty'.
      * unfold settle_validation in Hkey.
        destruct (h_in_flight h !! i) as [write|] eqn:Hi; simpl in Hkey;
          [|by apply Hdirty'].
        pose proof (Forall_lookup_1 _ _ _ _ Hok Hi (h_form h))
          as (_ & _ & Hd & _).
        rewrite Hd in Hkey. by apply Hdirty'.
Qed.

(** ** The field binding *)

(** The snapshot [fieldState] is consistent with itself: its status is
    ['error'] exactly when its error is not the empty string, ['success']
    only on a field whose touched flag is truthy, never ['validating'] on
    such a field and never ['warning'].  A binding made without a form is
    inert: its snapshot is the empty one and its handlers do nothing. *)
Theorem fieldState_consistent (name : jsstring) (form : option Form) :
  let fs := fieldState name form in
  (ffs_status fs = error ↔ ffs_error fs ≠ Own [])
  ∧ (ffs_status fs = success →
       ffs_touched fs = Own true ∨ ffs_touched fs = Inherited)
  ∧ (ffs_touched fs = Own true ∨ ffs_touched fs = Inherited →
       ffs_status fs ≠ validating)
  ∧ ffs_status fs ≠ warning
  ∧ (form = None →
       fs = {| ffs_value := Missing; ffs_error := Own [];
               ffs_status := validating; ffs_touched := Own false;
               ffs_dirty := Own false |}
       ∧ ∀ rules val,
           onBlur rules name form = None
           ∧ onChange rules name val form = None).
Proof.
  intros fs. subst fs. unfold fieldState, status, member_or. simpl.
  split; [|split; [|split; [|split]]].
  - destruct (field_error name form) as [m| |]; simpl.
    + unfold nonempty. case_bool_decide as Hm; simpl.
      * subst m.
        destruct (truthy_member id (field_touched name form)); by split.
      * split; [intros _|done]. by intros [= ->].
    + by split.
    + destruct (truthy_member id (field_touched name form)); by split.
  - destruct (truthy_member nonempty (field_error name form)); [done|].
    destruct (field_touched name form) as [[|]| |]; simpl; try done; eauto.
  - destruct (truthy_member nonempty (field_error name form)); [done|].
    destruct (field_touched name form) as [[|]| |]; simpl; try done;
      by intros [?|?].
  - destruct (truthy_member nonempty (field_error name form)); [done|].
    destruct (truthy_member id (field_touched name form)); simpl; done.
  - by intros ->.
Qed.



(** ** The built-in rules on present values *)

Section BuiltinMore.
Context {host : Conversions}.

Lemma validateRule_of_validator (run : JsValue -> JsValue) (value : JsValue) :
  validateRule value (validators.rule_of_validator run)
  = if strict_eq (run value) (JBool true) then Fulfilled Passed
    else match run value with
         | JStr s => Fulfilled (Failed s)
         | _ => Fulfilled (Failed msg_failed)
         end.
Proof. done. Qed.

Lemma or_message_or_passes (ok : bool) message dflt :
  strict_eq (validators.or_message_or ok message dflt) (JBool true) = ok.
Proof.
  unfold validators.or_message_or.
  destruct ok; [done|]. by destruct (truthy_str message).
Qed.

Lemma or_message_or_fails message dflt :
  validators.or_message_or false message dflt
  = JStr (match message with
          | Some m => if bool_decide (m = []) then dflt else m
          | None => dflt
          end).
Proof.
  unfold validators.or_message_or. destruct message as [m|]; simpl; [|done].
  by case_bool_decide.
Qed.

Lemma js_ge_finite (len q : Q) :
  js_ge (JNum (Finite len)) (Finite q) = true ↔ (q <= len)%Q.
Proof.
  unfold js_ge. simpl. rewrite <- Qle_bool_iff.
  by destruct (Qle_bool q len).
Qed.

Lemma js_le_finite (len q : Q) :
  js_le (JNum (Finite len)) (Finite q) = true ↔ (len <= q)%Q.
Proof.
  unfold js_le. simpl. rewrite <- Qle_bool_iff.
  by destruct (Qle_bool len q).
Qed.

(** [minLength] and [maxLength] on a non-empty string compare its number of
    code units with the bound: [minLength(q)] passes exactly when the length
    is at least [q], [maxLength(q)] exactly when it is at most [q].  A
    failing [minLength] gives the caller's message when it is not empty and
    otherwise the default message, which spells the bound.  With NaN as the
    bound both rules reject every non-empty string. *)
Theorem length_rules_on_strings
    (s : jsstring) (q : Q) (message : option jsstring) :
  s ≠ [] →
  let len := inject_Z (Z.of_nat (length s)) in
  (validateRule (JStr s) (validators.minLength (Finite q) message)
   = Fulfilled Passed ↔ (q <= len)%Q)
  ∧ (validateRule (JStr s) (validators.maxLength (Finite q) message)
     = Fulfilled Passed ↔ (len <= q)%Q)
  ∧ (¬ (q <= len)%Q →
       validateRule (JStr s) (validators.minLength (Finite q) message)
       = Fulfilled (Failed
           (match message with
            | Some m =>
                if bool_decide (m = [])
                then validators.msg_minLength (Finite q) else m
            | None => validators.msg_minLength (Finite q)
            end)))
  ∧ validateRule (JStr s) (validators.minLength NaN message)
    ≠ Fulfilled Passed
  ∧ validateRule (JStr s) (validators.maxLength NaN message)
    ≠ Fulfilled Passed.
Proof.
  intros Hs len.
  assert (truthy (JStr s) = true) as Htruthy
    by (simpl; by rewrite bool_decide_false).
  unfold validators.minLength, validators.maxLength.
  rewrite !validateRule_of_validator, Htruthy. simpl negb. cbv iota.
  rewrite !or_message_or_passes.
  change (get_length (JStr s)) with (JNum (Finite len)).
  split; [|split; [|split; [|split]]].
  - rewrite <- js_ge_finite.
    destruct (js_ge _ _); [done|]. by rewrite or_message_or_fails.
  - rewrite <- js_le_finite.
    destruct (js_le _ _); [done|]. by rewrite or_message_or_fails.
  - intros Hlt. rewrite <- js_ge_finite in Hlt.
    destruct (js_ge (JNum (Finite len)) (Finite q)); [done|].
    by rewrite or_message_or_fails.
  - change (js_ge (JNum (Finite len)) NaN) with false.
    by rewrite or_message_or_fails.
  - change (js_le (JNum (Finite len)) NaN) with false.
    by rewrite or_message_or_fails.
Qed.

(** On a value that is neither empty nor a string ([true], a number other
    than 0 and NaN), [minLength] and [maxLength] fail whatever the bound:
    such a value has no [length]. *)
Theorem length_rules_on_non_strings
    (value : JsValue) (bound : JsNumber) (message : option jsstring) :
  truthy value = true →
  (∀ s, value ≠ JStr s) →
  validateRule value (validators.minLength bound message) ≠ Fulfilled Passed
  ∧ validateRule value (validators.maxLength bound message)
    ≠ Fulfilled Passed.
Proof.
  intros Htruthy Hnot_str.
  unfold validators.minLength, validators.maxLength.
  rewrite !validateRule_of_validator, Htruthy. simpl negb. cbv iota.
  rewrite !or_message_or_passes.
  assert (get_length value = JUndefined) as ->.
  { destruct value as [| |b|n|s]; try done. by specialize (Hnot_str s). }
  assert (js_ge JUndefined bound = false) as -> by done.
  assert (js_le JUndefined bound = false) as ->
    by (unfold js_le; simpl; by destruct bound).
  by rewrite !or_message_or_fails.
Qed.

(** Every falsy value - not only [undefined], [null] and the empty string
    but also [false], [0] and NaN - passes [email], [minLength],
    [maxLength] and [pattern]; [required] rejects a falsy value only when it
    is [undefined], [null] or the empty string, so it accepts [false], [0]
    and NaN. *)
Theorem falsy_values
    (value : JsValue) (bound : JsNumber) (regex : RegExp)
    (message : option jsstring) :
  truthy value = false →
  validateRule value (validators.email message) = Fulfilled Passed
  ∧ validateRule value (validators.minLength bound message)
    = Fulfilled Passed
  ∧ validateRule value (validators.maxLength bound message)
    = Fulfilled Passed
  ∧ validateRule value (validators.pattern regex message)
    = Fulfilled Passed
  ∧ (validateRule value (validators.required message) = Fulfilled Passed
     ↔ value ≠ JUndefined ∧ value ≠ JNull ∧ value ≠ JStr []).
Proof.
  intros Hfalsy.
  unfold validators.email, validators.minLength, validators.maxLength,
    validators.pattern.
  rewrite !validateRule_of_validator, Hfalsy. simpl.
  repeat (split; [done|]).
  unfold validateRule, required_fails. simpl.
  pose proof (is_absent_iff value) as Habsent.
  destruct (is_absent value); split; try done.
  - intros (H1 & H2 & H3). destruct Habsent as [Habsent _].
    destruct (Habsent eq_refl) as [?|[?|?]]; done.
  - intros _. destruct Habsent as [_ Habsent].
    repeat split; intros ->; by (discriminate Habsent; eauto).
Qed.
End BuiltinMore.

(** [minLength(3)] on ["ab"] fails with the default message, which spells
    the bound; on ["abcd"] it passes. *)
Lemma length_rules_on_strings_witness :
  js "ab" ≠ [] ∧ js "abcd" ≠ []
  ∧ validateRule (JStr (js "ab"))
      (validators.minLength (host:=decimal_host) (Finite 3) None)
    = Fulfilled (Failed
        [26368; 23569; 36755; 20837; 51; 20010; 23383; 31526]%N)
  ∧ validateRule (JStr (js "abcd"))
      (validators.minLength (host:=decimal_host) (Finite 3) None)
    = Fulfilled Passed.
Proof.
  assert (js "ab" ≠ []) as Hab by discriminate.
  assert (js "abcd" ≠ []) as Habcd by discriminate.
  split; [exact Hab|]. split; [exact Habcd|]. split.
  - destruct (length_rules_on_strings (host:=decimal_host) (js "ab") 3 None
                Hab) as (_ & _ & Hfail & _).
    apply Hfail. unfold Qle. simpl. lia.
  - destruct (length_rules_on_strings (host:=decimal_host) (js "abcd") 3 None
                Habcd) as (Hmin & _).
    apply Hmin. unfold Qle. simpl. lia.
Defined.

(** [true] fails [minLength(0)]. *)
Lemma length_rules_on_non_strings_witness :
  truthy (JBool true) = true
  ∧ validateRule (JBool true)
      (validators.minLength (host:=decimal_host) (Finite 0) None)
    ≠ Fulfilled Passed.
Proof.
  split; [reflexivity|].
  destruct (length_rules_on_non_strings (host:=decimal_host) (JBool true)
              (Finite 0) None eq_refl) as (Hmin & _).
  - discriminate.
  - exact Hmin.
Defined.

(** The number 0 passes [email()] and [required()]. *)
Lemma falsy_values_witness :
  truthy (JNum (Finite 0)) = false
  ∧ validateRule (JNum (Finite 0)) (validators.email (host:=decimal_host) None)
    = Fulfilled Passed
  ∧ validateRule (JNum (Finite 0)) (validators.required None)
    = Fulfilled Passed.
Proof.
  split; [reflexivity|].
  destruct (falsy_values (host:=decimal_host) (JNum (Finite 0)) NaN
              (fun _ => false) None eq_refl) as (Hemail & _ & _ & _ & Hreq).
  split; [exact Hemail|]. apply Hreq. repeat split; discriminate.
Defined.

Section BuiltinNumbers.
Context {host : Conversions}.

(** [min] and [max] on a finite number: [min(a)] passes exactly when the
    number is at least [a], [max(b)] exactly when it is at most [b], and a
    field carrying the rules [[min(a), max(b)]] validates to true exactly
    when its number is in the range.  NaN as the value fails both rules
    whatever the bound. *)
Theorem range_rules_on_numbers
    (x a b : Q) (message : option jsstring) :
  (validateRule (JNum (Finite x)) (validators.min (Finite a) message)
   = Fulfilled Passed ↔ (a <= x)%Q)
  ∧ (validateRule (JNum (Finite x)) (validators.max (Finite b) message)
     = Fulfilled Passed ↔ (x <= b)%Q)
  ∧ (∀ rules name form,
       rule_for rules name
       = Some (Many [validators.min (Finite a) message;
                     validators.max (Finite b) message]) →
       get_value (values form) name = JNum (Finite x) →
       ((validateField rules name form).1 = Fulfilled true
        ↔ (a <= x)%Q ∧ (x <= b)%Q))
  ∧ (∀ bound,
       validateRule (JNum NaN) (validators.min bound message)
       ≠ Fulfilled Passed
       ∧ validateRule (JNum NaN) (validators.max bound message)
         ≠ Fulfilled Passed).
Proof.
  assert (validateRule (JNum (Finite x)) (validators.min (Finite a) message)
          = Fulfilled Passed ↔ (a <= x)%Q) as Hmin.
  { unfold validators.min. rewrite validateRule_of_validator. simpl.
    rewrite or_message_or_passes, <- js_ge_finite.
    destruct (js_ge _ _); [done|]. by rewrite or_message_or_fails. }
  assert (validateRule (JNum (Finite x)) (validators.max (Finite b) message)
          = Fulfilled Passed ↔ (x <= b)%Q) as Hmax.
  { unfold validators.max. rewrite validateRule_of_validator. simpl.
    rewrite or_message_or_passes, <- js_le_finite.
    destruct (js_le _ _); [done|]. by rewrite or_message_or_fails. }
  split; [exact Hmin|]. split; [exact Hmax|]. split.
  - intros rules name form Hrule Hvalue.
    rewrite (validateField_own _ _ _ _ Hrule), Hvalue. simpl.
    pose proof (validateRule_never_rejects (JNum (Finite x))
                  (validators.min (Finite a) message)) as Hnever1.
    pose proof (validateRule_never_rejects (JNum (Finite x))
                  (validators.max (Finite b) message)) as Hnever2.
    destruct (validateRule (JNum (Finite x))
                (validators.min (Finite a) message)) as [[|m1]|e1|];
      simpl.
    + destruct (validateRule (JNum (Finite x))
                  (validators.max (Finite b) message)) as [[|m2]|e2|];
        simpl.
      * split; [intros _|done]. split; [by apply Hmin|by apply Hmax].
      * split; [done|]. intros [_ Hb]. by apply Hmax in Hb.
      * by specialize (Hnever2 e2).
      * split; [done|]. intros [_ Hb]. by apply Hmax in Hb.
    + split; [done|]. intros [Ha _]. by apply Hmin in Ha.
    + by specialize (Hnever1 e1).
    + split; [done|]. intros [Ha _]. by apply Hmin in Ha.
  - intros bound. unfold validators.min, validators.max.
    rewrite !validateRule_of_validator.
    cbn -[js_ge js_le validators.or_message_or].
    rewrite !or_message_or_passes.
    assert (js_ge (JNum NaN) bound = false) as -> by done.
    assert (js_le (JNum NaN) bound = false) as ->
      by (unfold js_le; simpl; by destruct bound).
    by rewrite !or_message_or_fails.
Qed.

(** [number] accepts what converts to a number other than NaN: it passes
    both booleans and every number except NaN, and it passes a string
    exactly when the string is empty or converts to a number other than
    NaN.  Whatever value it fails on, the message is the caller's, even if
    empty, or the default one. *)
Theorem number_rule (message : option jsstring) :
  let rule := validators.number message in
  (∀ b, validateRule (JBool b) rule = Fulfilled Passed)
  ∧ (∀ x, validateRule (JNum x) rule = Fulfilled Passed ↔ x ≠ NaN)
  ∧ (∀ s, validateRule (JStr s) rule = Fulfilled Passed
          ↔ s = [] ∨ StringToNumber s ≠ NaN)
  ∧ (∀ value,
       validateRule value rule = Fulfilled Passed
       ∨ validateRule value rule
         = Fulfilled (Failed (default validators.msg_number message)))
  ∧ validateRule (JNum NaN) rule
    = Fulfilled (Failed (default validators.msg_number message)).
Proof.
  intros rule. subst rule. unfold validators.number.
  split; [|split; [|split; [|split]]].
  - intros b. rewrite validateRule_of_validator. by destruct b.
  - intros x. rewrite validateRule_of_validator. simpl.
    destruct x; simpl; split; done.
  - intros s. rewrite validateRule_of_validator. simpl.
    case_bool_decide as Hs; simpl.
    + split; [by left|done].
    + destruct (StringToNumber s); simpl; split; try done;
        try (by right); by intros [?|?].
  - intros value. rewrite validateRule_of_validator.
    cbv beta.
    destruct (strict_eq value (JStr []) || strict_eq value JNull
              || strict_eq value JUndefined); [by left|].
    unfold validators.or_message, validators.param_or.
    destruct (negb (num_isNaN (ToNumber value))); [by left|by right].
  - by rewrite validateRule_of_validator.
Qed.
End BuiltinNumbers.

(** ** The pattern of [email] *)

Lemma cat_inv (r s : regex) (w : jsstring) :
  re_lang (Cat r s) w → ∃ u v, w = u ++ v ∧ re_lang r u ∧ re_lang s v.
Proof. intros H. inversion H; subst. eauto 6. Qed.

Lemma nullable_lang (r : regex) : nullable r = true ↔ re_lang r [].
Proof.
  induction r as [| |p|r1 IH1 r2 IH2|r1 IH1 r2 IH2|r IH]; simpl.
  - split; [done|]. intros H. inversion H.
  - split; [constructor|done].
  - split; [done|]. intros H. inversion H.
  - rewrite andb_true_iff, IH1, IH2. split.
    + intros [H1 H2]. by apply (lang_cat r1 r2 [] []).
    + intros H. apply cat_inv in H as (u & v & Heq & Hu & Hv).
      symmetry in Heq. apply app_nil in Heq as [-> ->]. done.
  - rewrite orb_true_iff, IH1, IH2. split.
    + intros [H|H]; [by apply lang_alt_l|by apply lang_alt_r].
    + intros H. inversion H; subst; eauto.
  - split; [constructor|done].
Qed.

Lemma star_cons_inv (r : regex) (c : N) (s : jsstring) :
  re_lang (Star r) (c :: s) →
  ∃ u v, s = u ++ v ∧ re_lang r (c :: u) ∧ re_lang (Star r) v.
Proof.
  intros H. remember (Star r) as sr eqn:Hsr. remember (c :: s) as cs eqn:Hcs.
  revert s Hcs.
  induction H as [| | | | | |r' u v Hu _ Hv IHv]; intros w Hcs; try done.
  injection Hsr as ->. destruct u as [|c' u]; simpl in Hcs.
  - by apply IHv.
  - injection Hcs as -> <-. eauto.
Qed.

Lemma deriv_lang (r : regex) (c : N) (s : jsstring) :
  re_lang (deriv c r) s ↔ re_lang r (c :: s).
Proof.
  revert s.
  induction r as [| |p|r1 IH1 r2 IH2|r1 IH1 r2 IH2|r IH]; intros s; simpl.
  - split; intros H; inversion H.
  - split; intros H; inversion H.
  - destruct (p c) eqn:Hp.
    + split; intros H; inversion H; subst; [by constructor|constructor].
    + split; intros H; inversion H; subst. congruence.
  - assert (re_lang (Cat (deriv c r1) r2) s
            ↔ ∃ u v, s = u ++ v ∧ re_lang r1 (c :: u) ∧ re_lang r2 v)
      as Hleft.
    { split.
      - intros H. apply cat_inv in H as (u & v & -> & Hu & Hv).
        exists u, v. split; [done|]. split; [by apply IH1|done].
      - intros (u & v & -> & Hu & Hv). constructor; [by apply IH1|done]. }
    assert (re_lang (Cat r1 r2) (c :: s)
            ↔ (∃ u v, s = u ++ v ∧ re_lang r1 (c :: u) ∧ re_lang r2 v)
              ∨ (re_lang r1 [] ∧ re_lang r2 (c :: s))) as Hcat.
    { split.
      - intros H. apply cat_inv in H as (u & v & Heq & Hu & Hv).
        destruct u as [|c' u]; simpl in Heq.
        + right. by subst v.
        + injection Heq as <- ->. left. eauto.
      - intros [(u & v & -> & Hu & Hv)|[Hu Hv]].
        + by apply (lang_cat r1 r2 (c :: u) v).
        + by apply (lang_cat r1 r2 [] (c :: s)). }
    rewrite Hcat. destruct (nullable r1) eqn:Hnull.
    + split.
      * intros H. inversion H; subst.
        -- left. by apply Hleft.
        -- right. split; [by apply nullable_lang|by apply IH2].
      * intros [H|[_ H]].
        -- apply lang_alt_l. by apply Hleft.
        -- apply lang_alt_r. by apply IH2.
    + rewrite Hleft. split; [by left|]. intros [H|[H _]]; [done|].
      apply nullable_lang in H. congruence.
  - split.
    + intros H. inversion H; subst.
      * apply lang_alt_l. by apply IH1.
      * apply lang_alt_r. by apply IH2.
    + intros H. inversion H; subst.
      * apply lang_alt_l. by apply IH1.
      * apply lang_alt_r. by apply IH2.
  - split.
    + intros H. apply cat_inv in H as (u & v & -> & Hu & Hv).
      apply (lang_star_cons r (c :: u) v); [by apply IH|done].
    + intros H. apply star_cons_inv in H as (u & v & -> & Hu & Hv).
      constructor; [by apply IH|done].
Qed.

Lemma matches_lang (r : regex) (s : jsstring) :
  matches r s = true ↔ re_lang r s.
Proof.
  unfold matches. revert r. induction s as [|c s IH]; intros r; simpl.
  - apply nullable_lang.
  - rewrite IH. apply deriv_lang.
Qed.

Lemma class_inv (p : N -> bool) (w : jsstring) :
  re_lang (Class p) w → ∃ c, w = [c] ∧ p c = true.
Proof. intros H. inversion H; subst. eauto. Qed.

Lemma star_class_lang (p : N -> bool) (w : jsstring) :
  re_lang (Star (Class p)) w ↔ Forall (fun c => p c = true) w.
Proof.
  split.
  - intros H. remember (Star (Class p)) as sr eqn:Hsr.
    induction H as [| | | | | |r u v Hu _ Hv IHv]; try done.
    injection Hsr as ->. apply class_inv in Hu as (c & -> & Hc).
    constructor; [done|by apply IHv].
  - induction 1 as [|c w Hc _ IH]; [constructor|].
    apply (lang_star_cons (Class p) [c] w); [by constructor|done].
Qed.

Lemma plus_class_lang (p : N -> bool) (w : jsstring) :
  re_lang (Plus (Class p)) w ↔ w ≠ [] ∧ Forall (fun c => p c = true) w.
Proof.
  unfold Plus. split.
  - intros H. apply cat_inv in H as (u & v & -> & Hu & Hv).
    apply class_inv in Hu as (c & -> & Hc). apply star_class_lang in Hv.
    split; [done|by constructor].
  - intros [Hne Hall]. destruct Hall as [|c w Hc Hall]; [done|].
    apply (lang_cat (Class p) (Star (Class p)) [c] w); [by constructor|].
    by apply star_class_lang.
Qed.

Lemma char_lang (c : N) (w : jsstring) : re_lang (Char c) w ↔ w = [c].
Proof.
  unfold Char. split.
  - intros H. apply class_inv in H as (c' & -> & Hc).
    apply N.eqb_eq in Hc. by subst.
  - intros ->. constructor. apply N.eqb_refl.
Qed.

Lemma email_lang (s : jsstring) :
  re_lang emailRegex s
  ↔ ∃ a b c, s = a ++ 64%N :: b ++ 46%N :: c
             ∧ email_part a ∧ email_part b ∧ email_part c.
Proof.
  unfold emailRegex, email_part. split.
  - intros H.
    apply cat_inv in H as (a & w1 & -> & Ha & H).
    apply cat_inv in H as (at_ & w2 & -> & Hat & H).
    apply cat_inv in H as (b & w3 & -> & Hb & H).
    apply cat_inv in H as (dot & c & -> & Hdot & Hc).
    apply char_lang in Hat as ->. apply char_lang in Hdot as ->.
    apply plus_class_lang in Ha, Hb, Hc. by exists a, b, c.
  - intros (a & b & c & -> & Ha & Hb & Hc).
    apply plus_class_lang in Ha, Hb, Hc.
    apply lang_cat; [done|].
    apply (lang_cat _ _ [64%N]); [by apply char_lang|].
    apply lang_cat; [done|].
    apply (lang_cat _ _ [46%N]); [by apply char_lang|done].
Qed.

Section Email.
Context {host : Conversions}.

(** [email] passes a string exactly when it is empty or has the shape
    [a@b.c] where [a], [b] and [c] are non-empty and contain neither white
    space nor [@] (so there is exactly one [@], and a dot after it that is
    neither the first nor the last character of the rest).  When it fails
    the message is the caller's, even if empty, or the default one. *)
Theorem email_rule (s : jsstring) (message : option jsstring) :
  let shaped :=
    ∃ a b c, s = a ++ 64%N :: b ++ 46%N :: c
             ∧ email_part a ∧ email_part b ∧ email_part c in
  (validateRule (JStr s) (validators.email message) = Fulfilled Passed
   ↔ s = [] ∨ shaped)
  ∧ (s ≠ [] → ¬ shaped →
       validateRule (JStr s) (validators.email message)
       = Fulfilled (Failed (default validators.msg_email message))).
Proof.
  intros shaped. subst shaped. unfold validators.email.
  rewrite validateRule_of_validator. simpl.
  pose proof (matches_lang emailRegex s) as Hmatch.
  rewrite email_lang in Hmatch.
  case_bool_decide as Hs; simpl.
  - split; [split; [by left|done]|done].
  - unfold validators.or_message.
    destruct (matches emailRegex s); simpl.
    + split; [|by intros _ []; apply Hmatch].
      split; [intros _; right; by apply Hmatch|done].
    + split; [|done]. split; [done|].
      intros [?|Hshape]; [done|]. by apply Hmatch in Hshape.
Qed.
End Email.

(** [email()] on ["a@b.com"], which has the shape, and on ["a b@c.de"], which
    has white space in it. *)
Lemma email_rule_witness :
  validateRule (JStr (js "a@b.com"))
    (validators.email (host:=decimal_host) None) = Fulfilled Passed
  ∧ validateRule (JStr (js "a b@c.de"))
      (validators.email (host:=decimal_host) None)
    = Fulfilled (Failed validators.msg_email).
Proof.
  split.
  - destruct (email_rule (host:=decimal_host) (js "a@b.com") None)
      as (Hpass & _).
    apply Hpass. right. exists (js "a"), (js "b"), (js "com").
    split; [reflexivity|]. unfold email_part.
    repeat split; try discriminate; repeat constructor.
  - destruct (email_rule (host:=decimal_host) (js "a b@c.de") None)
      as (Hpass & Hfail).
    apply Hfail; [discriminate|]. intros Hshape.
    assert (validateRule (JStr (js "a b@c.de"))
              (validators.email (host:=decimal_host) None) = Fulfilled Passed)
      as Habs by (apply Hpass; by right).
    vm_compute in Habs. discriminate.
Defined.

(** ** [required()] and its message *)

(** The rule [required(message)] fails on [undefined], [null] and the empty
    string with the caller's message, or with the default required message
    when the caller gave none or gave the empty string; it passes every
    other value, and never calls a validator. *)
Theorem required_factory (message : option jsstring) (value : JsValue) :
  let shown :=
    match message with
    | Some m => if bool_decide (m = []) then msg_required else m
    | None => msg_required
    end in
  validator (validators.required message) = None
  ∧ shown ≠ []
  ∧ ((value = JUndefined ∨ value = JNull ∨ value = JStr []) →
       validateRule value (validators.required message)
       = Fulfilled (Failed shown))
  ∧ (¬ (value = JUndefined ∨ value = JNull ∨ value = JStr []) →
       validateRule value (validators.required message) = Fulfilled Passed).
Proof.
  intros shown. subst shown. split; [done|]. split; [|split].
  - destruct message as [m|]; [|done]. by case_bool_decide.
  - intros Habsent. apply is_absent_iff in Habsent.
    unfold validateRule, required_fails. simpl. rewrite Habsent.
    unfold message_or, validators.param_or. simpl.
    destruct message as [m|]; simpl; [|done]. by case_bool_decide.
  - intros Hpresent. unfold validateRule, required_fails. simpl.
    destruct (is_absent value) eqn:Habs; [|done].
    apply is_absent_iff in Habs. contradiction.
Qed.

(** ** [reset] followed by the watcher *)


